(** * ZincX: geometry values, events, the graphics view and the event manager

    A shallow embedding of the ZincX sources:
    - [src/common/ZCommon.h], [src/common/ZCommonEnums.h]: value types and
      the scoped enumerations;
    - [src/event/ZEvent.h]: [ZEvent] and [ZMouseEvent];
    - [src/graphics/ZGraphicsView.*]: [addItem], [removeItem], [render];
    - [src/event/ZEventManager.*]: [queueEvent], [registerListener],
      [dispatchEvents];
    - [src/graphics/DOSGraphicsBackend.cpp] and [src/main.cpp]: the console
      stub and the entry point.

    Conventions.
    - A C++ [int] is a 32-bit two's complement integer, carried as a [Z];
      signed overflow has no defined result, so arithmetic on [int] is
      checked and yields [None] when the exact result does not fit.
    - A [ZGraphicsItem*] is an address; only its identity matters to the
      view and to the manager, so it is a [nat].
    - Callbacks and [draw] are taken to return normally; an exception that
      escapes one of them unwinds the whole pass and is not modelled.
    - Every world carries a chronological [log] of what the manager (or the
      view) did; it is ghost state that the modelled code never reads. *)

From Stdlib Require Import ZArith Lia.
From stdpp Require Import base option list gmap strings pretty.

(** ** Scoped enumerations ([enum class]) *)

Module RenderMode.
Inductive t := Text | Graphics16 | Vulkan.
End RenderMode.

Module WidgetState.
Inductive t := Normal | Hovered | Pressed | Disabled.
End WidgetState.

Module EventType.
Inductive t := MouseClick | KeyPress | TouchStart.
End EventType.

Module KeyModifier.
Inductive t := None | Shift | Ctrl | Alt.
End KeyModifier.

Module InputDeviceType.
Inductive t := Mouse | Keyboard | Touchpad.
End InputDeviceType.

#[global] Instance WidgetState_eq_dec : EqDecision WidgetState.t.
Proof. solve_decision. Defined.

#[global] Instance EventType_eq_dec : EqDecision EventType.t.
Proof. solve_decision. Defined.

#[global] Instance KeyModifier_eq_dec : EqDecision KeyModifier.t.
Proof. solve_decision. Defined.

#[global] Instance InputDeviceType_eq_dec : EqDecision InputDeviceType.t.
Proof. solve_decision. Defined.

(** ** [int] and the fundamental value types of ZCommon.h *)

Module Int.
#[local] Open Scope Z_scope.

Definition INT_MIN : Z := -2147483648.
Definition INT_MAX : Z := 2147483647.

(** [fits z]: the exact integer [z] is representable as an [int]. *)
Definition fits (z : Z) : bool := (INT_MIN <=? z) && (z <=? INT_MAX).

(** [a + b] and [a - b] on [int]: the exact value when it is representable,
    nothing otherwise (signed overflow). *)
Definition add (a b : Z) : option Z :=
  if fits (a + b) then Some (a + b) else None.

Definition sub (a b : Z) : option Z :=
  if fits (a - b) then Some (a - b) else None.

End Int.

Module ZPoint.
Record t := { x : Z; y : Z }.
End ZPoint.

Module ZPadding.
Record t := { left : Z; top : Z; right : Z; bottom : Z }.

(** Each field is an [int]. *)
Definition wf (p : t) : bool :=
  Int.fits (left p) && Int.fits (top p) && Int.fits (right p) && Int.fits (bottom p).
End ZPadding.

Module ZRect.
#[local] Open Scope Z_scope.

Record t := { x : Z; y : Z; width : Z; height : Z }.

(** Each field is an [int]. *)
Definition wf (r : t) : bool :=
  Int.fits (x r) && Int.fits (y r) && Int.fits (width r) && Int.fits (height r).

(** [ZRect::deflate(const ZPadding&) const]. The receiver is [const] and is
    passed by value here; the braced initialiser evaluates its four
    expressions left to right, and [a - b - c] is [(a - b) - c]. *)
Definition deflate (this : t) (padding : ZPadding.t) : option t :=
  x' ← Int.add (x this) (ZPadding.left padding);
  y' ← Int.add (y this) (ZPadding.top padding);
  w1 ← Int.sub (width this) (ZPadding.left padding);
  w' ← Int.sub w1 (ZPadding.right padding);
  h1 ← Int.sub (height this) (ZPadding.top padding);
  h' ← Int.sub h1 (ZPadding.bottom padding);
  Some {| x := x'; y := y'; width := w'; height := h' |}.

(** The rectangle that unbounded integers give. *)
Definition deflate_exact (r : t) (p : ZPadding.t) : t :=
  {| x := x r + ZPadding.left p;
     y := y r + ZPadding.top p;
     width := width r - ZPadding.left p - ZPadding.right p;
     height := height r - ZPadding.top p - ZPadding.bottom p |}.

(** None of the six operations of [deflate] overflows. *)
Definition deflate_in_range (r : t) (p : ZPadding.t) : bool :=
  Int.fits (x r + ZPadding.left p)
  && Int.fits (y r + ZPadding.top p)
  && Int.fits (width r - ZPadding.left p)
  && Int.fits (width r - ZPadding.left p - ZPadding.right p)
  && Int.fits (height r - ZPadding.top p)
  && Int.fits (height r - ZPadding.top p - ZPadding.bottom p).
End ZRect.

(** ** Events (ZEvent.h) *)

Record ZEvent := {
  type : EventType.t;
  timestamp : Z;                      (* uint64_t *)
  deviceType : InputDeviceType.t
}.

Record ZMouseEvent := {
  mouse_base : ZEvent;                (* the ZEvent subobject *)
  position : ZPoint.t;
  button : Z;
  modifiers : KeyModifier.t
}.

(** [ZEvent(t, device = InputDeviceType::Mouse)]: [None] stands for the
    omitted argument. *)
Definition ZEvent_new (t : EventType.t) (device : option InputDeviceType.t) : ZEvent :=
  {| type := t;
     timestamp := 0%Z;
     deviceType := default InputDeviceType.Mouse device |}.

(** [ZMouseEvent(t, pos, btn, mod = KeyModifier::None)]. *)
Definition ZMouseEvent_new (t : EventType.t) (pos : ZPoint.t) (btn : Z)
    (modifier : option KeyModifier.t) : ZMouseEvent :=
  {| mouse_base := ZEvent_new t (Some InputDeviceType.Mouse);
     position := pos;
     button := btn;
     modifiers := default KeyModifier.None modifier |}.

(** What a [std::unique_ptr<ZEvent>] points to: an object whose dynamic
    type is [ZEvent] itself or [ZMouseEvent]. *)
Inductive Event :=
  | BaseEvent (e : ZEvent)
  | MouseEvent (m : ZMouseEvent).

(** The [ZEvent] view of an event object (the static type in the queue). *)
Definition as_ZEvent (e : Event) : ZEvent :=
  match e with
  | BaseEvent b => b
  | MouseEvent m => mouse_base m
  end.

(** [dynamic_cast<ZMouseEvent*>(event.get())]. *)
Definition dynamic_cast_ZMouseEvent (e : Event) : option ZMouseEvent :=
  match e with
  | BaseEvent _ => None
  | MouseEvent m => Some m
  end.

(** ** Item references and the paint-order vector *)

(** A [ZGraphicsItem*]: compared by address only. *)
Abbreviation ItemRef := nat.

Module Vec.

(** [v.push_back(x)]. *)
Definition push_back {A} (v : list A) (x : A) : list A := v ++ [x].

(** [std::find(first, last, value)] on the positions [first .. first+n) of
    [v]: the first position holding [value], or [last]. *)
Fixpoint find (v : list ItemRef) (value : ItemRef) (first n : nat) : nat :=
  match n with
  | O => first
  | S n' =>
      match v !! first with
      | Some y => if decide (y = value) then first else find v value (S first) n'
      | None => first
      end
  end.

(** The shifting loop of [std::remove]:
    every element after the found position that differs from [value] is
    moved down to the write cursor, which then advances. [i] is the read
    cursor, [first] the write cursor and [n = last - i] the number of
    positions left to read. The loop works in place and returns the vector
    together with the new logical end. *)
Fixpoint shift (value : ItemRef) (n i first : nat) (v : list ItemRef)
    : list ItemRef * nat :=
  match n with
  | O => (v, first)
  | S n' =>
      match v !! i with
      | Some y =>
          if decide (y = value) then shift value n' (S i) first v
          else shift value n' (S i) (S first) (<[first := y]> v)
      | None => (v, first)
      end
  end.

(** [std::remove(v.begin(), v.end(), value)]. *)
Definition remove (v : list ItemRef) (value : ItemRef) : list ItemRef * nat :=
  let first := find v value 0 (length v) in
  if decide (first = length v) then (v, first)
  else shift value (length v - S first) (S first) first v.

(** [v.erase(pos, v.end())]: the vector is cut at [pos]. *)
Definition erase_to_end {A} (v : list A) (pos : nat) : list A := take pos v.

End Vec.

(** ** The graphics view (ZGraphicsView) *)

Section View.
(** The state a [draw] call can reach: the backend's output surface.
    [ZGraphicsItem::draw] (taking the backend pointer) is virtual and its class
    body is not part of the tree, so it is a parameter. *)
Context {Backend : Type}.
Variable draw : ItemRef → Backend → Backend.

(** Modelled from the spec: the data members of [ZGraphicsView]. The class
    declaration is not in the tree (the file named ZGraphicsView.h holds the
    member definitions); the spec has "owns one backend instance
    exclusively" and "holds a non-owning ordered sequence of item references
    (insertion order = paint order)", and the members use [push_back],
    [erase] and iterators on [items_]. *)
Record ZGraphicsView := {
  backend_ : Backend;
  renderMode_ : RenderMode.t;
  items_ : list ItemRef
}.

(** [ZGraphicsView::addItem]: [items_.push_back(item)]. *)
Definition addItem (item : ItemRef) (view : ZGraphicsView) : ZGraphicsView :=
  {| backend_ := backend_ view;
     renderMode_ := renderMode_ view;
     items_ := Vec.push_back (items_ view) item |}.

(** [ZGraphicsView::removeItem]:
    [items_.erase(std::remove(items_.begin(), items_.end(), item), items_.end())]. *)
Definition removeItem (item : ItemRef) (view : ZGraphicsView) : ZGraphicsView :=
  let '(v, new_end) := Vec.remove (items_ view) item in
  {| backend_ := backend_ view;
     renderMode_ := renderMode_ view;
     items_ := Vec.erase_to_end v new_end |}.

(** The range-for of [render]: the items still to be visited, the backend,
    and the references whose [draw] has been invoked so far, oldest
    first. *)
Fixpoint render_loop (rest : list ItemRef) (b : Backend) (drawn : list ItemRef)
    : Backend * list ItemRef :=
  match rest with
  | [] => (b, drawn)
  | item :: rest' => render_loop rest' (draw item b) (drawn ++ [item])
  end.

(** [ZGraphicsView::render]: the view afterwards and the sequence of
    [draw] invocations it made. *)
Definition render (view : ZGraphicsView) : ZGraphicsView * list ItemRef :=
  let '(b, drawn) := render_loop (items_ view) (backend_ view) [] in
  ({| backend_ := b; renderMode_ := renderMode_ view; items_ := items_ view |},
   drawn).
End View.

Arguments ZGraphicsView : clear implicits.

(** ** The event manager (ZEventManager) *)

(** What the manager is seen to do, in the order it happens. *)
Inductive Action :=
  | Queued (e : Event)                 (* queueEvent(e) pushed e *)
  | Dequeued (e : Event)               (* dispatchEvents popped e *)
  | Invoked (k : nat) (e : Event)      (* the callback of listener k ran on e *)
  | StateSet (item : ItemRef) (s : WidgetState.t) (cause : Event).
                                       (* item->setState(s), while dispatching cause *)

(** The events passed to [queueEvent], oldest first. *)
Definition queued (l : list Action) : list Event :=
  omap (λ a, match a with Queued e => Some e | _ => None end) l.

(** The events popped by [dispatchEvents], oldest first. *)
Definition dequeued (l : list Action) : list Event :=
  omap (λ a, match a with Dequeued e => Some e | _ => None end) l.

(** The callback invocations: which listener, on which event. *)
Definition invocations (l : list Action) : list (nat * Event) :=
  omap (λ a, match a with Invoked k e => Some (k, e) | _ => None end) l.

(** What the dispatch loop does itself (everything but the [queueEvent]
    calls that callbacks make). *)
Definition is_dispatch_action (a : Action) : bool :=
  match a with Queued _ => false | _ => true end.

(** The event passes the cast of line 22 and carries [MouseClick]. *)
Definition is_click (e : Event) : bool :=
  match dynamic_cast_ZMouseEvent e with
  | Some m => bool_decide (type (mouse_base m) = EventType.MouseClick)
  | None => false
  end.

(** The [setState] calls of the dispatch loop: item, new state, and the
    event that was being dispatched. *)
Definition state_changes (l : list Action) : list (ItemRef * WidgetState.t * Event) :=
  omap (λ a, match a with StateSet i s c => Some (i, s, c) | _ => None end) l.

(** [ZEventManager.cpp:25] compares the event's type with
    [EventType::MouseRelease]. Neither declaration of [EventType]
    (ZCommonEnums.h:85-89, ZCommon.h:273) has such an enumerator: no value
    of the type is a mouse release, so the comparison holds for none. *)
Definition is_MouseRelease (t : EventType.t) : bool := false.

Section Manager.
(** Whatever the callbacks capture besides the items. *)
Context {Env : Type}.

(** The memory outside the manager: the captured environment and the
    [state] field of every item. *)
Record Heap := {
  env : Env;
  item_state : gmap ItemRef WidgetState.t
}.

(** Modelled from the spec: [ZGraphicsItem::setState(WidgetState)]. The body
    of class [ZGraphicsItem] is not in ZGraphicsItem.h; the spec has
    "unconditional mutation, no validation against current state". *)
Definition setState (item : ItemRef) (s : WidgetState.t) (h : Heap) : Heap :=
  {| env := env h; item_state := <[item := s]> (item_state h) |}.

(** A [std::function<void(const ZEvent&)>]: it may change the heap and may
    call [queueEvent] on the manager; the events it queues are returned in
    call order. It cannot reach the private queue or registry otherwise. *)
Definition Callback : Type := Event → Heap → Heap * list Event.

Record ZEventManager := {
  eventQueue_ : list Event;                      (* front of the queue first *)
  listeners_ : list (ItemRef * Callback)
}.

Record World := {
  heap : Heap;
  manager : ZEventManager;
  log : list Action
}.

Definition with_heap (h : Heap) (w : World) : World :=
  {| heap := h; manager := manager w; log := log w |}.

Definition with_queue (q : list Event) (w : World) : World :=
  {| heap := heap w;
     manager := {| eventQueue_ := q; listeners_ := listeners_ (manager w) |};
     log := log w |}.

Definition record (a : Action) (w : World) : World :=
  {| heap := heap w; manager := manager w; log := log w ++ [a] |}.

(** [ZEventManager::queueEvent]: [eventQueue_.push(std::move(event))]. *)
Definition queueEvent (event : Event) (w : World) : World :=
  record (Queued event) (with_queue (eventQueue_ (manager w) ++ [event]) w).

(** [ZEventManager::registerListener]:
    [listeners_.emplace_back(item, std::move(callback))]. *)
Definition registerListener (item : ItemRef) (callback : Callback) (w : World) : World :=
  {| heap := heap w;
     manager := {| eventQueue_ := eventQueue_ (manager w);
                   listeners_ := listeners_ (manager w) ++ [(item, callback)] |};
     log := log w |}.

(** A run of [queueEvent] calls. *)
Definition queueEvents (events : list Event) (w : World) : World :=
  foldl (λ w e, queueEvent e w) w events.

(** The call of [callback] on the dereferenced event, for listener number
    [k]. *)
Definition invoke (k : nat) (callback : Callback) (event : Event) (w : World) : World :=
  let '(h, pushed) := callback event (heap w) in
  queueEvents pushed (with_heap h (record (Invoked k event) w)).

(** [item->setState(s)] issued by the dispatch loop. *)
Definition set_item_state (item : ItemRef) (s : WidgetState.t) (cause : Event)
    (w : World) : World :=
  record (StateSet item s cause) (with_heap (setState item s (heap w)) w).

(** The [if (auto* mouseEvent = dynamic_cast<ZMouseEvent*>(event.get()))]
    block, lines 22-28. *)
Definition update_item_state (item : ItemRef) (event : Event) (w : World) : World :=
  match dynamic_cast_ZMouseEvent event with
  | Some mouseEvent =>
      if decide (type (mouse_base mouseEvent) = EventType.MouseClick) then
        set_item_state item WidgetState.Pressed event w
      else if is_MouseRelease (type (mouse_base mouseEvent)) then
        set_item_state item WidgetState.Normal event w
      else w
  | None => w
  end.

(** The body of [for (auto& [item, callback] : listeners_)], from listener
    number [k] on. *)
Fixpoint for_listeners (k : nat) (ls : list (ItemRef * Callback)) (event : Event)
    (w : World) : World :=
  match ls with
  | [] => w
  | (item, callback) :: ls' =>
      for_listeners (S k) ls' event
        (update_item_state item event (invoke k callback event w))
  end.

(** One iteration of the [while]: take the front event, pop it, run the
    listener loop on it. With an empty queue nothing happens. *)
Definition dispatch_front (w : World) : World :=
  match eventQueue_ (manager w) with
  | [] => w
  | event :: rest =>
      let w1 := record (Dequeued event) (with_queue rest w) in
      for_listeners 0 (listeners_ (manager w1)) event w1
  end.

(** [ZEventManager::dispatchEvents]. The loop need not end (a callback may
    queue an event each time it runs), so it is run on [fuel]: the number of
    times the loop condition may be evaluated. [None]: the fuel ran out. *)
Fixpoint dispatchEvents (fuel : nat) (w : World) : option World :=
  match fuel with
  | O => None
  | S fuel' =>
      match eventQueue_ (manager w) with
      | [] => Some w
      | _ :: _ => dispatchEvents fuel' (dispatch_front w)
      end
  end.

(** The world after [k] iterations of the loop (fewer if the queue runs
    empty before). *)
Definition iterations (k : nat) (w : World) : World :=
  Nat.iter k dispatch_front w.

(** A fresh manager holding the listeners [ls], over heap [h]. *)
Definition fresh (ls : list (ItemRef * Callback)) (h : Heap) : World :=
  {| heap := h;
     manager := {| eventQueue_ := []; listeners_ := ls |};
     log := [] |}.

(** What a pass dispatching exactly the events [es] invokes: for each event
    in turn, every listener number from [0] to [n - 1] in turn. *)
Definition expected_invocations (n : nat) (es : list Event) : list (nat * Event) :=
  e ← es; (λ k, (k, e)) <$> seq 0 n.

(** No callback of [ls] ever calls [queueEvent]. *)
Definition queue_nothing (ls : list (ItemRef * Callback)) : Prop :=
  ∀ x e h, x ∈ ls → (x.2 e h).2 = [].

(** What the loop owes to a log [l] it produced from [w] on: the queue
    equation "dequeued, then still waiting = was waiting, then queued", each
    listener once per dequeued event, and state changes only to [Pressed] and
    only for dequeued clicks. *)
Definition pass_log (w : World) (l : list Action) (w' : World) : Prop :=
  log w' = log w ++ l
  ∧ listeners_ (manager w') = listeners_ (manager w)
  ∧ dequeued l ++ eventQueue_ (manager w') = eventQueue_ (manager w) ++ queued l
  ∧ invocations l
    = expected_invocations (length (listeners_ (manager w))) (dequeued l)
  ∧ ∀ i s c, (i, s, c) ∈ state_changes l →
      s = WidgetState.Pressed ∧ c ∈ dequeued l ∧ is_click c = true.

End Manager.

Arguments Heap : clear implicits.
Arguments Callback : clear implicits.
Arguments ZEventManager : clear implicits.
Arguments World : clear implicits.

(** ** The trace of a click *)

(** What the dispatch loop does for a click [e], from listener number [k]
    on: each callback in turn, each followed at once by the state change of
    its own item. *)
Fixpoint click_trace {Env} (k : nat) (ls : list (ItemRef * Callback Env)) (e : Event)
    : list Action :=
  match ls with
  | [] => []
  | (item, _) :: ls' =>
      Invoked k e :: StateSet item WidgetState.Pressed e :: click_trace (S k) ls' e
  end.

(** "The state rule for an event is applied only after every listener has
    run for that event": in the log, no callback invocation on [e] comes
    after a state change caused by [e]. *)
Definition rule_after_listeners (l : list Action) : Prop :=
  ∀ pre post item s e k,
    l = pre ++ StateSet item s e :: post → Invoked k e ∉ post.

(** ** Concrete scenarios *)

Module Scenario.

Definition origin : ZPoint.t := {| ZPoint.x := 0; ZPoint.y := 0 |}.

(** A left click at the origin, and a key press. *)
Definition click : Event :=
  MouseEvent (ZMouseEvent_new EventType.MouseClick origin 0 None).

Definition key : Event :=
  BaseEvent (ZEvent_new EventType.KeyPress (Some InputDeviceType.Keyboard)).

(** Items 1 and 2, both [Normal]; item 1 [Pressed]. *)
Definition both_normal {Env} (captured : Env) : Heap Env :=
  {| env := captured;
     item_state := {[ 1 := WidgetState.Normal; 2 := WidgetState.Normal ]} |}.

Definition one_pressed : Heap unit :=
  {| env := tt; item_state := {[ 1 := WidgetState.Pressed ]} |}.

(** A callback that does nothing. *)
Definition idle {Env} : Callback Env := λ _ h, (h, []).

(** A callback that notes the state item 1 is in when it runs. *)
Definition observer : Callback (list (option WidgetState.t)) :=
  λ _ h, ({| env := item_state h !! 1 :: env h; item_state := item_state h |}, []).

(** A callback that answers a click by queueing a key press. *)
Definition echo : Callback unit :=
  λ e h, (h, if is_click e then [key] else []).

(** A callback that queues the event it is given once more. *)
Definition again : Callback unit := λ e h, (h, [e]).

(** Item 1 listens idly, item 2 observes; one click is queued. *)
Definition observed_click : World (list (option WidgetState.t)) :=
  queueEvent click
    (registerListener 2 observer
       (registerListener 1 idle (fresh [] (both_normal [])))).

(** Items 1 and 2 listen idly; a click and then a key press are queued. *)
Definition click_then_key : World unit :=
  queueEvents [click; key] (fresh [(1, idle); (2, idle)] (both_normal tt)).

(** Item 1 answers clicks with a key press; one click is queued. *)
Definition echoed_click : World unit :=
  queueEvent click (registerListener 1 echo (fresh [] (both_normal tt))).

(** Item 1 queues every event again; one click is queued. *)
Definition requeued_click : World unit :=
  queueEvent click (registerListener 1 again (fresh [] (both_normal tt))).

(** Item 1 is [Pressed] and listens idly; one mouse event of type [t] is
    queued. *)
Definition pressed_then_mouse (t : EventType.t) (pos : ZPoint.t) (btn : Z)
    (modifier : option KeyModifier.t) : World unit :=
  queueEvent (MouseEvent (ZMouseEvent_new t pos btn modifier))
    (registerListener 1 idle (fresh [] one_pressed)).

(** Two key presses for two idle listeners. *)
Definition two_keys : World unit :=
  queueEvents [key; key] (fresh [(1, idle); (2, idle)] (both_normal tt)).

(** A rectangle whose left edge is at [INT_MAX], and a padding of one on the
    left. *)
Definition rect_at_max : ZRect.t :=
  {| ZRect.x := Int.INT_MAX; ZRect.y := 0; ZRect.width := 0; ZRect.height := 0 |}.

Definition pad_left_one : ZPadding.t :=
  {| ZPadding.left := 1; ZPadding.top := 0; ZPadding.right := 0; ZPadding.bottom := 0 |}.

Definition rect_small : ZRect.t :=
  {| ZRect.x := 10; ZRect.y := 20; ZRect.width := 100; ZRect.height := 50 |}.

Definition pad_small : ZPadding.t :=
  {| ZPadding.left := 2; ZPadding.top := 3; ZPadding.right := 4; ZPadding.bottom := 5 |}.

(** Views over a backend that keeps the list of references drawn on it. *)
Definition view_of (items : list ItemRef) : ZGraphicsView (list ItemRef) :=
  {| backend_ := []; renderMode_ := RenderMode.Text; items_ := items |}.

End Scenario.

(** * Further code of the same files *)

(** ** ZCommon.h: circles, [clamp], colours *)

Module ZCircle.
#[local] Open Scope Z_scope.

Record t := { center : ZPoint.t; radius : Z }.

(** [a * b] on [int], checked like [Int.add]. *)
Definition mul (a b : Z) : option Z :=
  if Int.fits (a * b) then Some (a * b) else None.

(** [ZCircle::contains(const ZPoint&) const]:
    [dx = point.x - center.x], [dy = point.y - center.y], then
    [(dx * dx + dy * dy) <= (radius * radius)], all on [int]. *)
Definition contains (this : t) (point : ZPoint.t) : option bool :=
  dx ← Int.sub (ZPoint.x point) (ZPoint.x (center this));
  dy ← Int.sub (ZPoint.y point) (ZPoint.y (center this));
  dx2 ← mul dx dx;
  dy2 ← mul dy dy;
  sum ← Int.add dx2 dy2;
  r2 ← mul (radius this) (radius this);
  Some (sum <=? r2).

(** The largest [int] whose square is an [int]. *)
Definition SQRT_MAX : Z := 46340.
End ZCircle.

(** [template<typename T> T clamp(value, min, max)] at [T = int]: two
    comparisons, no arithmetic. *)
Definition clamp (value min max : Z) : Z :=
  if (value <? min)%Z then min
  else if (value >? max)%Z then max
  else value.

Module ZColor.
Record t := { r : Z; g : Z; b : Z; a : Z }.
End ZColor.


Definition no_padding : ZPadding.t :=
  {| ZPadding.left := 0; ZPadding.top := 0;
     ZPadding.right := 0; ZPadding.bottom := 0 |}.

(** ** DOSGraphicsBackend.cpp: the console stub *)

Module TextAlignment.
Inductive t := Left | Center | Right | Justified.
End TextAlignment.

Module DOS.

(** The line feed that the sources write as a backslash followed by n. *)
Definition nl : string := String (Ascii.ascii_of_nat 10) EmptyString.

(** [std::cout] is the text written so far. [out << s] appends a string,
    [out <<# z] an [int] or a [size_t], which the stream writes in decimal
    with a minus sign when negative. *)
Definition put (out s : string) : string := out +:+ s.

Definition put_int (out : string) (z : Z) : string := out +:+ pretty z.

#[local] Infix "<<" := put (at level 50, left associativity).
#[local] Infix "<<#" := put_int (at level 50, left associativity).

(** [DOSGraphicsBackend::initialize]. *)
Definition initialize (mode : RenderMode.t) (cout : string) : string :=
  let cout := cout << "DOS Graphics Backend Initialized with mode: " in
  match mode with
  | RenderMode.Text => cout << "Text" << nl
  | RenderMode.Graphics16 => cout << "Graphics16" << nl
  | RenderMode.Vulkan => cout << "Vulkan (not supported on DOS)" << nl
  end.

(** [DOSGraphicsBackend::fillRect]. *)
Definition fillRect (rect : ZRect.t) (color : ZColor.t) (cout : string) : string :=
  cout << "Filling rect at " <<# ZRect.x rect << "," <<# ZRect.y rect
       << " with size " <<# ZRect.width rect << "x" <<# ZRect.height rect
       << " and color (" <<# ZColor.r color << "," <<# ZColor.g color
       << "," <<# ZColor.b color << ")" << nl.

(** [DOSGraphicsBackend::drawRect]. *)
Definition drawRect (rect : ZRect.t) (color : ZColor.t) (cout : string) : string :=
  cout << "Drawing rect outline at " <<# ZRect.x rect << "," <<# ZRect.y rect
       << " with size " <<# ZRect.width rect << "x" <<# ZRect.height rect
       << " and color (" <<# ZColor.r color << "," <<# ZColor.g color
       << "," <<# ZColor.b color << ")" << nl.

(** [DOSGraphicsBackend::drawLine]. *)
Definition drawLine (start end_ : ZPoint.t) (color : ZColor.t) (cout : string)
    : string :=
  cout << "Drawing line from (" <<# ZPoint.x start << "," <<# ZPoint.y start
       << ") to (" <<# ZPoint.x end_ << "," <<# ZPoint.y end_
       << ") with color (" <<# ZColor.r color << "," <<# ZColor.g color
       << "," <<# ZColor.b color << ")" << nl.

(** [(filled ? "filled " : "")]. *)
Definition filled_word (filled : bool) : string :=
  if filled then "filled " else "".

(** [DOSGraphicsBackend::drawCircle]. *)
Definition drawCircle (center : ZPoint.t) (radius : Z) (color : ZColor.t)
    (filled : bool) (cout : string) : string :=
  cout << "Drawing " << filled_word filled << "circle at ("
       <<# ZPoint.x center << "," <<# ZPoint.y center << ") with radius "
       <<# radius << " and color (" <<# ZColor.r color << ","
       <<# ZColor.g color << "," <<# ZColor.b color << ")" << nl.

(** [DOSGraphicsBackend::drawEllipse]. *)
Definition drawEllipse (center : ZPoint.t) (width height : Z) (color : ZColor.t)
    (filled : bool) (cout : string) : string :=
  cout << "Drawing " << filled_word filled << "ellipse at ("
       <<# ZPoint.x center << "," <<# ZPoint.y center << ") with size "
       <<# width << "x" <<# height << " and color (" <<# ZColor.r color << ","
       <<# ZColor.g color << "," <<# ZColor.b color << ")" << nl.

(** The range-for of [drawPolygon]. *)
Fixpoint put_points (points : list ZPoint.t) (cout : string) : string :=
  match points with
  | [] => cout
  | point :: points' =>
      put_points points'
        (cout << "Point: (" <<# ZPoint.x point << "," <<# ZPoint.y point << ") ")
  end.

(** [DOSGraphicsBackend::drawPolygon]. *)
Definition drawPolygon (points : list ZPoint.t) (color : ZColor.t)
    (filled : bool) (cout : string) : string :=
  let cout :=
    cout << "Drawing " << filled_word filled << "polygon with "
         <<# Z.of_nat (length points) << " points and color ("
         <<# ZColor.r color << "," <<# ZColor.g color << ","
         <<# ZColor.b color << ")" << nl in
  put_points points cout << nl.

(** [DOSGraphicsBackend::drawText]; [alignment] defaults to [Center] in the
    declaration, [None] stands for the omitted argument. *)
Definition drawText (text : string) (bounds : ZRect.t) (color : ZColor.t)
    (alignment : option TextAlignment.t) (cout : string) : string :=
  let cout :=
    cout << "Drawing text '" << text << "' at bounds " <<# ZRect.x bounds
         << "," <<# ZRect.y bounds << " with size " <<# ZRect.width bounds
         << "x" <<# ZRect.height bounds << " and color (" <<# ZColor.r color
         << "," <<# ZColor.g color << "," <<# ZColor.b color << ") aligned " in
  match default TextAlignment.Center alignment with
  | TextAlignment.Left => cout << "Left" << nl
  | TextAlignment.Center => cout << "Center" << nl
  | TextAlignment.Right => cout << "Right" << nl
  | TextAlignment.Justified => cout << "Justified" << nl
  end.

(** The text ends with a line feed. *)
Definition ends_line (s : string) : Prop := ∃ s', s = s' +:+ nl.

End DOS.

(** ** The constructor of the view, and [main] *)

(** [ZGraphicsView::ZGraphicsView(backend, mode)]: the members are
    initialised from the arguments, [items_] is empty, and the body calls
    [backend_->initialize(renderMode_)]. [initialize] is the backend's
    virtual member. *)
Definition ZGraphicsView_new {Backend : Type}
    (initialize : RenderMode.t → Backend → Backend)
    (backend : Backend) (mode : RenderMode.t) : ZGraphicsView Backend :=
  {| backend_ := initialize mode backend; renderMode_ := mode; items_ := [] |}.

(** [main()] of main.cpp, from the text already on [std::cout] to the text
    at exit and the exit status. The backend is a [DOSGraphicsBackend], whose
    only state is the console. [main] gives the constructor no mode: the
    default comes from the class declaration, which is not in the tree, so
    it is a parameter, as is [draw]. *)
Definition main (draw : ItemRef → string → string) (default_mode : RenderMode.t)
    (cout : string) : string * Z :=
  let cout := DOS.put cout ("Starting ZincX Test" +:+ DOS.nl) in
  let view := ZGraphicsView_new DOS.initialize cout default_mode in
  let '(view, _) := render draw view in
  let cout := DOS.put (backend_ view) ("Test Complete" +:+ DOS.nl) in
  (cout, 0%Z).

(** ** Reading a heap *)

(** The items registered with some listener. *)
Definition registered {Env} (ls : list (ItemRef * Callback Env)) : list ItemRef :=
  ls.*1.

(** Every callback of [ls] leaves the state of every item as it is. *)
Definition keep_item_states {Env} (ls : list (ItemRef * Callback Env)) : Prop :=
  ∀ x e h, x ∈ ls → item_state (x.2 e h).1 = item_state h.

(** No callback of [ls] takes an item out of [Pressed]. *)
Definition keep_pressed {Env} (ls : list (ItemRef * Callback Env)) : Prop :=
  ∀ x e h i, x ∈ ls →
    item_state h !! i = Some WidgetState.Pressed →
    item_state (x.2 e h).1 !! i = Some WidgetState.Pressed.

(** ** More concrete scenarios *)

Module Sample.

(** A padding wider than [Scenario.rect_small]. *)
Definition pad_wide : ZPadding.t :=
  {| ZPadding.left := 60; ZPadding.top := 0;
     ZPadding.right := 60; ZPadding.bottom := 0 |}.

(** The circle of radius 5 about (1, 1), and a point on its rim. *)
Definition circle5 : ZCircle.t :=
  {| ZCircle.center := {| ZPoint.x := 1; ZPoint.y := 1 |}; ZCircle.radius := 5 |}.

Definition circle7 : ZCircle.t :=
  {| ZCircle.center := {| ZPoint.x := 1; ZPoint.y := 1 |}; ZCircle.radius := 7 |}.

Definition rim_point : ZPoint.t := {| ZPoint.x := 4; ZPoint.y := 5 |}.

(** The two rectangles that [Scenario.rect_small] deflates to under
    [Scenario.pad_small], once and twice. *)
Definition rect_once : ZRect.t :=
  {| ZRect.x := 12; ZRect.y := 23; ZRect.width := 94; ZRect.height := 42 |}.



(** Idle listeners for the given items. *)
Definition idle_listeners (items : list ItemRef) : list (ItemRef * Callback unit) :=
  (λ i, (i, Scenario.idle)) <$> items.

(** Nobody listens; a click and a key press are queued. *)
Definition unheard : World unit :=
  queueEvents [Scenario.click; Scenario.key] (fresh [] (Scenario.both_normal tt)).

(** Item 1 listens idly, item 2 is not registered; a click is queued. *)
Definition one_listener : World unit :=
  queueEvents [Scenario.click] (fresh (idle_listeners [1]) (Scenario.both_normal tt)).


End Sample.

(** ** What the callbacks themselves do to the heap *)

Section Replay.
Context {Env : Type}.

(** The effect that one call has on the heap, written without the manager:
    the callback of listener number [inv.1] is applied to the event [inv.2]
    and the heap reached so far, then the state rule of lines 22-28 is
    applied to the item of that listener. The second component collects the
    events the callbacks queue. *)
Definition apply_listener (ls : list (ItemRef * Callback Env))
    (acc : Heap Env * list Event) (inv : nat * Event) : Heap Env * list Event :=
  match ls !! inv.1 with
  | Some (item, callback) =>
      let h := (callback inv.2 acc.1).1 in
      (if is_click inv.2 then setState item WidgetState.Pressed h else h,
       acc.2 ++ (callback inv.2 acc.1).2)
  | None => acc
  end.

(** The heap that a sequence of calls leaves, and the events they queue. *)
Definition replay (ls : list (ItemRef * Callback Env)) (invs : list (nat * Event))
    (h : Heap Env) : Heap Env * list Event :=
  foldl (apply_listener ls) (h, []) invs.

(** The log [l] that leads from [w] to [w'] tells what really happened to
    the heap: replaying its invocations on the heap of [w] gives the heap of
    [w'], and the events the callbacks queue on the way are its [Queued]
    entries. *)
Definition replays (w : World Env) (l : list Action) (w' : World Env) : Prop :=
  log w' = log w ++ l
  ∧ listeners_ (manager w') = listeners_ (manager w)
  ∧ ∀ acc, foldl (apply_listener (listeners_ (manager w))) (heap w, acc)
             (invocations l)
           = (heap w', acc ++ queued l).
End Replay.

(** ** Callbacks that leave a trace on the heap *)

Module Traced.

(** A callback that appends its own number and the event it is given to the
    captured list. *)
Definition note (k : nat) : Callback (list (nat * Event)) :=
  λ e h, ({| env := env h ++ [(k, e)]; item_state := item_state h |}, []).

(** Items 1 and 2 listen with [note 0] and [note 1]; a click and then a key
    press are queued. *)
Definition noted_click_then_key : World (list (nat * Event)) :=
  queueEvents [Scenario.click; Scenario.key]
    (fresh [(1, note 0); (2, note 1)] (Scenario.both_normal [])).

(** A callback that counts its calls in the captured number. *)
Definition tick : Callback nat :=
  λ e h, ({| env := S (env h); item_state := item_state h |}, []).

(** One counting listener for each of the given items; an item that occurs
    twice is registered twice. *)
Definition ticking (items : list ItemRef) : list (ItemRef * Callback nat) :=
  (λ i, (i, tick)) <$> items.

End Traced.

(** ** [clamp] as the template it is *)

(** [template<typename T> T clamp(value, min, max)] for any [T]: [lt] and
    [gt] are the [operator<] and [operator>] of the type. The [clamp] above
    is this one at [int]. *)
Definition clamp_T {T : Type} (lt gt : T → T → bool) (value min max : T) : T :=
  if lt value min then min
  else if gt value max then max
  else value.

(** [operator<] is a strict total order and [operator>] is its converse: so
    it is for the integer types, and is not for a floating-point type, where
    a NaN compares false with everything. *)
Record StrictTotal {T : Type} (lt gt : T → T → bool) : Prop := {
  lt_irrefl : ∀ a, lt a a = false;
  lt_trans : ∀ a b c, lt a b = true → lt b c = true → lt a c = true;
  lt_total : ∀ a b, lt a b = true ∨ a = b ∨ lt b a = true;
  gt_converse : ∀ a b, gt a b = lt b a
}.

(** ** The release rule, once the enumerator exists *)

Module Ext.

(** Modelled from the spec: [EventType] with the enumerator [MouseRelease],
    which ZEventManager.cpp:25 names and which neither declaration of the
    enumeration has; the spec speaks of "a (not-yet-defined-in-the-closed-enum)
    MouseRelease" and says that "the enumeration must be extended before the
    described behavior is reachable". The other three enumerators are the
    declared ones. Everything below in this module is the code of ZEvent.h
    and ZEventManager.cpp again, over this enumeration. *)
Inductive EventType := MouseClick | KeyPress | TouchStart | MouseRelease.

#[global] Instance EventType_eq_dec : EqDecision EventType.
Proof. solve_decision. Defined.

Record ZEvent := {
  type : EventType;
  timestamp : Z;
  deviceType : InputDeviceType.t
}.

Record ZMouseEvent := {
  mouse_base : ZEvent;
  position : ZPoint.t;
  button : Z;
  modifiers : KeyModifier.t
}.

Definition ZEvent_new (t : EventType) (device : option InputDeviceType.t) : ZEvent :=
  {| type := t;
     timestamp := 0%Z;
     deviceType := default InputDeviceType.Mouse device |}.

Definition ZMouseEvent_new (t : EventType) (pos : ZPoint.t) (btn : Z)
    (modifier : option KeyModifier.t) : ZMouseEvent :=
  {| mouse_base := ZEvent_new t (Some InputDeviceType.Mouse);
     position := pos;
     button := btn;
     modifiers := default KeyModifier.None modifier |}.

Inductive Event :=
  | BaseEvent (e : ZEvent)
  | MouseEvent (m : ZMouseEvent).

Definition dynamic_cast_ZMouseEvent (e : Event) : option ZMouseEvent :=
  match e with
  | BaseEvent _ => None
  | MouseEvent m => Some m
  end.

Section Manager.
Context {Env : Type}.

Definition Callback : Type := Event → Heap Env → Heap Env * list Event.

Record ZEventManager := {
  eventQueue_ : list Event;
  listeners_ : list (ItemRef * Callback)
}.

Record World := {
  heap : Heap Env;
  manager : ZEventManager
}.

Definition with_queue (q : list Event) (w : World) : World :=
  {| heap := heap w;
     manager := {| eventQueue_ := q; listeners_ := listeners_ (manager w) |} |}.

(** [ZEventManager::queueEvent]. *)
Definition queueEvent (event : Event) (w : World) : World :=
  with_queue (eventQueue_ (manager w) ++ [event]) w.

(** [ZEventManager::registerListener]. *)
Definition registerListener (item : ItemRef) (callback : Callback) (w : World) : World :=
  {| heap := heap w;
     manager := {| eventQueue_ := eventQueue_ (manager w);
                   listeners_ := listeners_ (manager w) ++ [(item, callback)] |} |}.

(** The call of [callback] on the event: the heap it leaves, and the events
    it queues put at the back of the queue. *)
Definition invoke (callback : Callback) (event : Event) (w : World) : World :=
  let '(h, pushed) := callback event (heap w) in
  foldl (λ w e, queueEvent e w) {| heap := h; manager := manager w |} pushed.

(** Lines 22-28, with both branches. *)
Definition update_item_state (item : ItemRef) (event : Event) (w : World) : World :=
  match dynamic_cast_ZMouseEvent event with
  | Some mouseEvent =>
      if decide (type (mouse_base mouseEvent) = MouseClick) then
        {| heap := setState item WidgetState.Pressed (heap w); manager := manager w |}
      else if decide (type (mouse_base mouseEvent) = MouseRelease) then
        {| heap := setState item WidgetState.Normal (heap w); manager := manager w |}
      else w
  | None => w
  end.

(** The body of the range-for over [listeners_]. *)
Fixpoint for_listeners (ls : list (ItemRef * Callback)) (event : Event)
    (w : World) : World :=
  match ls with
  | [] => w
  | (item, callback) :: ls' =>
      for_listeners ls' event (update_item_state item event (invoke callback event w))
  end.

(** One iteration of the [while]. *)
Definition dispatch_front (w : World) : World :=
  match eventQueue_ (manager w) with
  | [] => w
  | event :: rest =>
      let w1 := with_queue rest w in
      for_listeners (listeners_ (manager w1)) event w1
  end.

(** [ZEventManager::dispatchEvents], on fuel as before. *)
Fixpoint dispatchEvents (fuel : nat) (w : World) : option World :=
  match fuel with
  | O => None
  | S fuel' =>
      match eventQueue_ (manager w) with
      | [] => Some w
      | _ :: _ => dispatchEvents fuel' (dispatch_front w)
      end
  end.
End Manager.

Arguments Callback : clear implicits.
Arguments ZEventManager : clear implicits.
Arguments World : clear implicits.

(** *** Scenarios *)



Definition idle : Callback unit := λ _ h, (h, []).




End Ext.

(** * Facts *)

(** ** Geometry and events *)

Section Geometry.
#[local] Open Scope Z_scope.

Lemma fits_iff z : Int.fits z = true ↔ Int.INT_MIN ≤ z ≤ Int.INT_MAX.
Proof. unfold Int.fits. rewrite andb_true_iff, !Z.leb_le. tauto. Qed.

Lemma add_fits a b : Int.fits (a + b) = true → Int.add a b = Some (a + b).
Proof. unfold Int.add. by intros ->. Qed.

Lemma sub_fits a b : Int.fits (a - b) = true → Int.sub a b = Some (a - b).
Proof. unfold Int.sub. by intros ->. Qed.

(** Claim C8, as stated, fails: the rectangle whose left edge is [INT_MAX]
    and the padding with [left = 1] are both made of [int]s, yet [deflate]
    does not return the rectangle of the exact integers, which is not even
    a rectangle of [int]s. *)
Lemma deflate_overflows_at_INT_MAX :
  ZRect.wf Scenario.rect_at_max = true
  ∧ ZPadding.wf Scenario.pad_left_one = true
  ∧ ZRect.deflate Scenario.rect_at_max Scenario.pad_left_one
    ≠ Some (ZRect.deflate_exact Scenario.rect_at_max Scenario.pad_left_one)
  ∧ ZRect.wf (ZRect.deflate_exact Scenario.rect_at_max Scenario.pad_left_one) = false.
Proof. by vm_compute. Qed.

(** Claim C8, amended: when none of the six [int] operations of [deflate]
    overflows, it returns exactly
    [{x + left, y + top, width - left - right, height - top - bottom}].
    [deflate] is a function of the receiver and the padding alone (a [const]
    member on values), so nothing else can change. *)
Theorem deflate_exact_when_in_range (r : ZRect.t) (p : ZPadding.t) :
  ZRect.deflate_in_range r p = true →
  ZRect.deflate r p = Some (ZRect.deflate_exact r p).
Proof.
  unfold ZRect.deflate_in_range. rewrite !andb_true_iff.
  intros [[[[[Hx Hy] Hw1] Hw] Hh1] Hh].
  unfold ZRect.deflate.
  rewrite (add_fits _ _ Hx), (add_fits _ _ Hy). simpl.
  rewrite (sub_fits _ _ Hw1). simpl. rewrite (sub_fits _ _ Hw). simpl.
  rewrite (sub_fits _ _ Hh1). simpl. by rewrite (sub_fits _ _ Hh).
Qed.

(** A small rectangle and a small padding. *)
Lemma deflate_exact_when_in_range_witness :
  ZRect.deflate_in_range Scenario.rect_small Scenario.pad_small = true
  ∧ ZRect.deflate Scenario.rect_small Scenario.pad_small
    = Some {| ZRect.x := 12; ZRect.y := 23; ZRect.width := 94; ZRect.height := 42 |}.
Proof.
  split; [reflexivity|].
  apply (deflate_exact_when_in_range Scenario.rect_small Scenario.pad_small).
  reflexivity.
Defined.

(** Conversely a result is always the exact rectangle. *)
Lemma deflate_Some_exact (r r' : ZRect.t) (p : ZPadding.t) :
  ZRect.deflate r p = Some r' →
  ZRect.deflate_in_range r p = true ∧ r' = ZRect.deflate_exact r p.
Proof.
  unfold ZRect.deflate, ZRect.deflate_in_range, Int.add, Int.sub.
  repeat (case_match; simpl; try done).
  intros [= <-]. split; [|done].
  repeat match goal with H : Int.fits _ = true |- _ => rewrite H; clear H end.
  done.
Qed.

(** Claim C10: [ZEvent(t)], with the device argument left to its default,
    has [deviceType == Mouse] and [timestamp == 0] whatever the type [t],
    [KeyPress] and [TouchStart] included. *)
Theorem ZEvent_default_device_is_Mouse (t : EventType.t) :
  deviceType (ZEvent_new t None) = InputDeviceType.Mouse
  ∧ timestamp (ZEvent_new t None) = 0
  ∧ type (ZEvent_new t None) = t.
Proof. by destruct t. Qed.

End Geometry.

(** ** The erase-remove idiom *)

Section VecFacts.
Implicit Types (v : list ItemRef) (x : ItemRef).

(** The shifting loop keeps what was written below the write cursor and
    appends, in order, what it still reads and keeps. *)
Lemma shift_spec x n : ∀ i first v,
  first < i → i + n = length v →
  Vec.erase_to_end (Vec.shift x n i first v).1 (Vec.shift x n i first v).2
  = take first v ++ filter (λ y, y ≠ x) (drop i v).
Proof.
  induction n as [|n IH]; intros i first v Hlt Hlen; simpl.
  - rewrite drop_ge by lia. by rewrite filter_nil, app_nil_r.
  - destruct (lookup_lt_is_Some_2 v i) as [y Hy]; [lia|].
    rewrite Hy, (drop_S _ _ _ Hy).
    destruct (decide (y = x)) as [->|Hne].
    + rewrite filter_cons_False by (intros H; by apply H).
      apply IH; lia.
    + rewrite filter_cons_True by done.
      rewrite IH by (rewrite ?length_insert; lia).
      rewrite drop_insert_lt by lia.
      rewrite (take_S_r _ _ y) by (apply list_lookup_insert_eq; lia).
      rewrite take_insert_ge by lia.
      by rewrite <- app_assoc.
Qed.

(** [find] stops on the first occurrence: nothing before it is dropped by
    the filter. *)
Lemma find_spec x v n : ∀ first,
  first + n = length v →
  let f := Vec.find v x first n in
  first ≤ f ≤ length v
  ∧ filter (λ y, y ≠ x) (drop first v)
    = take (f - first) (drop first v) ++ filter (λ y, y ≠ x) (drop f v)
  ∧ (f < length v → v !! f = Some x).
Proof.
  induction n as [|n IH]; intros first Hlen; simpl.
  - split; [lia|]. rewrite Nat.sub_diag. simpl. split; [done|lia].
  - destruct (lookup_lt_is_Some_2 v first) as [y Hy]; [lia|].
    rewrite Hy. destruct (decide (y = x)) as [->|Hne].
    + split; [lia|]. rewrite Nat.sub_diag. by simpl.
    + destruct (IH (S first)) as (Hr & Hf & Hx); [lia|].
      split; [lia|]. split; [|done].
      rewrite (drop_S _ _ _ Hy), filter_cons_True by done.
      rewrite Hf.
      by replace (Vec.find v x (S first) n - first)
        with (S (Vec.find v x (S first) n - S first)) by lia.
Qed.

(** [v.erase(std::remove(v.begin(), v.end(), x), v.end())] leaves the
    elements other than [x], in their order. *)
Lemma remove_erase v x :
  Vec.erase_to_end (Vec.remove v x).1 (Vec.remove v x).2
  = filter (λ y, y ≠ x) v.
Proof.
  unfold Vec.remove.
  destruct (find_spec x v (length v) 0) as (Hr & Hf & Hx); [lia|].
  rewrite Nat.sub_0_r, !drop_0 in Hf.
  destruct (decide _) as [Heq|Hne]; simpl.
  - rewrite Hf, Heq. unfold Vec.erase_to_end.
    rewrite drop_ge by lia. by rewrite filter_nil, app_nil_r.
  - rewrite shift_spec by lia.
    rewrite Hf. f_equal.
    rewrite (drop_S v x (Vec.find v x 0 (length v))) by (apply Hx; lia).
    rewrite filter_cons_False; [done|]. intros H; by apply H.
Qed.

Lemma filter_absent v x : x ∉ v → filter (λ y, y ≠ x) v = v.
Proof.
  induction v as [|y v IH]; [done|].
  intros [Hne Hv]%not_elem_of_cons.
  rewrite filter_cons_True by done. by rewrite IH.
Qed.

End VecFacts.

(** ** The graphics view *)

Section ViewFacts.
Context {Backend : Type}.
Implicit Types (view : ZGraphicsView Backend) (x : ItemRef).

Lemma removeItem_items view x :
  items_ (removeItem x view) = filter (λ y, y ≠ x) (items_ view).
Proof.
  unfold removeItem. rewrite <- remove_erase.
  by destruct (Vec.remove (items_ view) x).
Qed.

Lemma removeItem_frame view x :
  backend_ (removeItem x view) = backend_ view
  ∧ renderMode_ (removeItem x view) = renderMode_ view.
Proof. unfold removeItem. by destruct (Vec.remove (items_ view) x). Qed.

(** Claim C9: [removeItem(x)] leaves exactly the original sequence with
    every occurrence of [x] deleted, the other occurrences in their order;
    backend and render mode are not touched. *)
Theorem removeItem_deletes_occurrences_in_order view x :
  items_ (removeItem x view) = filter (λ y, y ≠ x) (items_ view)
  ∧ backend_ (removeItem x view) = backend_ view
  ∧ renderMode_ (removeItem x view) = renderMode_ view.
Proof. split; [apply removeItem_items | apply removeItem_frame]. Qed.

(** In general, [addItem(x)] then [removeItem(x)] deletes the earlier
    occurrences of [x] too. *)
Lemma addItem_removeItem_items view x :
  items_ (removeItem x (addItem x view)) = filter (λ y, y ≠ x) (items_ view).
Proof.
  rewrite removeItem_items. simpl. unfold Vec.push_back.
  rewrite filter_app, filter_cons_False, filter_nil, app_nil_r; [done|].
  intros H; by apply H.
Qed.

(** Claim C5, amended: when [x] does not occur in the paint-order sequence,
    [addItem(x)] followed by [removeItem(x)] gives back the view as it
    was. *)
Theorem addItem_removeItem_fresh view x :
  x ∉ items_ view → removeItem x (addItem x view) = view.
Proof.
  intros Hx.
  pose proof (addItem_removeItem_items view x) as Hi.
  rewrite (filter_absent _ _ Hx) in Hi.
  destruct (removeItem_frame (addItem x view) x) as (Hb & Hm).
  destruct (removeItem x (addItem x view)), view; simpl in *. by subst.
Qed.

End ViewFacts.

(** 7 is not among the items 3 and 4. *)
Lemma addItem_removeItem_fresh_witness :
  (7 ∉ items_ (Scenario.view_of [3; 4]))
  ∧ removeItem 7 (addItem 7 (Scenario.view_of [3; 4])) = Scenario.view_of [3; 4].
Proof.
  assert (H : 7 ∉ items_ (Scenario.view_of [3; 4])).
  { simpl. rewrite !not_elem_of_cons. split_and!; [lia | lia | apply not_elem_of_nil]. }
  split; [exact H|].
  exact (addItem_removeItem_fresh (Scenario.view_of [3; 4]) 7 H).
Defined.

(** Claim C5, as stated, fails when [x] is already in the sequence: from
    [[7]], adding 7 and removing it leaves the empty sequence. *)
Lemma addItem_removeItem_loses_earlier_occurrence :
  items_ (Scenario.view_of [7]) = [7]
  ∧ items_ (removeItem 7 (addItem 7 (Scenario.view_of [7]))) = []
  ∧ items_ (removeItem 7 (addItem 7 (Scenario.view_of [7])))
    ≠ items_ (Scenario.view_of [7]).
Proof. by vm_compute. Qed.

Section RenderFacts.
Context {Backend : Type}.
Variable draw : ItemRef → Backend → Backend.
Implicit Types (view : ZGraphicsView Backend) (b : Backend).

Lemma render_loop_spec rest : ∀ b drawn,
  render_loop draw rest b drawn
  = (foldl (λ b item, draw item b) b rest, drawn ++ rest).
Proof.
  induction rest as [|item rest IH]; intros b drawn; simpl.
  - by rewrite app_nil_r.
  - by rewrite IH, <- app_assoc.
Qed.

(** Claim C6: [render()] invokes [draw] once for each occurrence in the
    paint-order sequence, from index 0 to the last: the sequence of
    invocations is the sequence of items itself, so there are [N] of them,
    the [k]-th is for the [k]-th item, and a reference that occurs twice is
    drawn twice. The backend goes through the [draw] calls in that order and
    the items are left as they were. *)
Theorem render_draws_each_occurrence_in_order view :
  (render draw view).2 = items_ view
  ∧ length ((render draw view).2) = length (items_ view)
  ∧ (∀ k, (render draw view).2 !! k = items_ view !! k)
  ∧ (∀ x, length (filter (λ y, y = x) ((render draw view).2))
          = length (filter (λ y, y = x) (items_ view)))
  ∧ backend_ (render draw view).1
    = foldl (λ b item, draw item b) (backend_ view) (items_ view)
  ∧ items_ (render draw view).1 = items_ view.
Proof.
  unfold render. rewrite render_loop_spec. simpl. by split_and!.
Qed.

End RenderFacts.

(** ** Reading logs *)

Lemma queued_app l1 l2 : queued (l1 ++ l2) = queued l1 ++ queued l2.
Proof. apply omap_app. Qed.

Lemma dequeued_app l1 l2 : dequeued (l1 ++ l2) = dequeued l1 ++ dequeued l2.
Proof. apply omap_app. Qed.

Lemma invocations_app l1 l2 :
  invocations (l1 ++ l2) = invocations l1 ++ invocations l2.
Proof. apply omap_app. Qed.

Lemma state_changes_app l1 l2 :
  state_changes (l1 ++ l2) = state_changes l1 ++ state_changes l2.
Proof. apply omap_app. Qed.

Lemma queued_Queued es : queued (Queued <$> es) = es.
Proof. induction es as [|e es IH]; [done|]. unfold queued in *. simpl. by f_equal. Qed.

Lemma dequeued_Queued es : dequeued (Queued <$> es) = [].
Proof. by induction es. Qed.

Lemma invocations_Queued es : invocations (Queued <$> es) = [].
Proof. by induction es. Qed.

Lemma state_changes_Queued es : state_changes (Queued <$> es) = [].
Proof. by induction es. Qed.

Lemma dispatch_actions_Queued es l :
  filter is_dispatch_action ((Queued <$> es) ++ l) = filter is_dispatch_action l.
Proof.
  induction es as [|e es IH]; [done|]. simpl.
  rewrite filter_cons_False; [done|]. by intros [].
Qed.

Lemma queued_cons a l :
  queued (a :: l) = match a with Queued e => e :: queued l | _ => queued l end.
Proof. by destruct a. Qed.

Lemma dequeued_cons a l :
  dequeued (a :: l) = match a with Dequeued e => e :: dequeued l | _ => dequeued l end.
Proof. by destruct a. Qed.

Lemma invocations_cons a l :
  invocations (a :: l)
  = match a with Invoked k e => (k, e) :: invocations l | _ => invocations l end.
Proof. by destruct a. Qed.

Lemma state_changes_cons a l :
  state_changes (a :: l)
  = match a with
    | StateSet i s c => (i, s, c) :: state_changes l
    | _ => state_changes l
    end.
Proof. by destruct a. Qed.

Create Rewrite HintDb zlog.

#[export] Hint Rewrite queued_app dequeued_app invocations_app state_changes_app
  queued_Queued dequeued_Queued invocations_Queued state_changes_Queued
  queued_cons dequeued_cons invocations_cons state_changes_cons : zlog.

(** Push the four readings through a log built from [++], [::] and runs of
    [Queued]. *)
Ltac read_log := autorewrite with zlog; cbv iota beta.

(** ** The listener loop *)

Section ListenerFacts.
Context {Env : Type}.
Implicit Types (w : World Env) (e : Event) (h : Heap Env)
  (cb : Callback Env) (ls : list (ItemRef * Callback Env)).

Lemma queueEvents_spec es w :
  heap (queueEvents es w) = heap w
  ∧ listeners_ (manager (queueEvents es w)) = listeners_ (manager w)
  ∧ eventQueue_ (manager (queueEvents es w)) = eventQueue_ (manager w) ++ es
  ∧ log (queueEvents es w) = log w ++ (Queued <$> es).
Proof.
  revert w. induction es as [|e es IH]; intros w; simpl.
  - by rewrite !app_nil_r.
  - destruct (IH (queueEvent e w)) as (-> & -> & -> & ->). simpl.
    by rewrite <- !app_assoc.
Qed.

Lemma invoke_spec k cb e w :
  heap (invoke k cb e w) = (cb e (heap w)).1
  ∧ listeners_ (manager (invoke k cb e w)) = listeners_ (manager w)
  ∧ eventQueue_ (manager (invoke k cb e w))
    = eventQueue_ (manager w) ++ (cb e (heap w)).2
  ∧ log (invoke k cb e w)
    = log w ++ Invoked k e :: (Queued <$> (cb e (heap w)).2).
Proof.
  unfold invoke. destruct (cb e (heap w)) as [h pushed]. simpl.
  destruct (queueEvents_spec pushed (with_heap h (record (Invoked k e) w)))
    as (-> & -> & -> & ->). simpl.
  by rewrite <- app_assoc.
Qed.

(** The block of lines 22-28 comes down to one test. *)
Lemma update_item_state_click item e w :
  is_click e = true →
  update_item_state item e w = set_item_state item WidgetState.Pressed e w.
Proof.
  unfold is_click, update_item_state.
  destruct (dynamic_cast_ZMouseEvent e) as [m|]; [|done].
  intros H%bool_decide_eq_true. by rewrite decide_True.
Qed.

Lemma update_item_state_other item e w :
  is_click e = false → update_item_state item e w = w.
Proof.
  unfold is_click, update_item_state.
  destruct (dynamic_cast_ZMouseEvent e) as [m|]; [|done].
  intros H%bool_decide_eq_false. by rewrite decide_False.
Qed.

Lemma is_click_mouse e :
  is_click e = true → is_Some (dynamic_cast_ZMouseEvent e).
Proof. unfold is_click. destruct (dynamic_cast_ZMouseEvent e); [eauto|done]. Qed.

(** One step of the listener loop, whatever the event. *)
Lemma listener_step k item cb e w :
  let w' := update_item_state item e (invoke k cb e w) in
  ∃ l, log w' = log w ++ Invoked k e :: (Queued <$> (cb e (heap w)).2) ++ l
    ∧ l = (if is_click e then [StateSet item WidgetState.Pressed e] else [])
    ∧ listeners_ (manager w') = listeners_ (manager w)
    ∧ eventQueue_ (manager w') = eventQueue_ (manager w) ++ (cb e (heap w)).2
    ∧ heap w' = (if is_click e
                 then setState item WidgetState.Pressed (cb e (heap w)).1
                 else (cb e (heap w)).1).
Proof.
  destruct (invoke_spec k cb e w) as (Hh & Hl & Hq & Hlog).
  destruct (is_click e) eqn:Hc; simpl.
  - rewrite update_item_state_click by done.
    exists [StateSet item WidgetState.Pressed e].
    split_and!; simpl; rewrite ?Hlog, ?Hl, ?Hq, ?Hh, <- ?app_assoc; done.
  - rewrite update_item_state_other by done.
    exists []. by rewrite app_nil_r.
Qed.

(** What one run of the listener loop adds to the log, and what it leaves
    alone. *)
Lemma for_listeners_spec ls : ∀ k e w,
  ∃ l, log (for_listeners k ls e w) = log w ++ l
    ∧ listeners_ (manager (for_listeners k ls e w)) = listeners_ (manager w)
    ∧ eventQueue_ (manager (for_listeners k ls e w))
      = eventQueue_ (manager w) ++ queued l
    ∧ dequeued l = []
    ∧ invocations l = (λ j, (j, e)) <$> seq k (length ls)
    ∧ state_changes l
      = (if is_click e then (λ x, (x.1, WidgetState.Pressed, e)) <$> ls else [])
    ∧ filter is_dispatch_action l
      = (if is_click e then click_trace k ls e
         else (λ j, Invoked j e) <$> seq k (length ls)).
Proof.
  induction ls as [|[item cb] ls IH]; intros k e w; simpl.
  - exists []. rewrite !app_nil_r. by destruct (is_click e).
  - destruct (listener_step k item cb e w) as (l1 & Hlog & Hl1 & Hls & Hq & _).
    destruct (IH (S k) e (update_item_state item e (invoke k cb e w)))
      as (l2 & -> & -> & -> & Hd & Hi & Hs & Hf).
    exists (Invoked k e :: (Queued <$> (cb e (heap w)).2) ++ l1 ++ l2).
    rewrite Hlog, Hls, Hq.
    rewrite filter_cons_True, dispatch_actions_Queued, filter_app, Hf by done.
    destruct (is_click e); subst l1; read_log; rewrite Hd, Hi, Hs;
      rewrite <- ?app_assoc; split_and!; try done; simpl; by rewrite <- app_assoc.
Qed.

Lemma for_listeners_app ls1 ls2 : ∀ k e w,
  for_listeners k (ls1 ++ ls2) e w
  = for_listeners (k + length ls1) ls2 e (for_listeners k ls1 e w).
Proof.
  induction ls1 as [|[item cb] ls1 IH]; intros k e w; simpl.
  - by rewrite Nat.add_0_r.
  - rewrite IH. by replace (S k + length ls1) with (k + S (length ls1)) by lia.
Qed.

(** A property of the heap that every callback of [ls] keeps, and that
    setting any item to [Pressed] keeps, survives the loop on a click. *)
Lemma for_listeners_click_keeps (P : Heap Env → Prop) ls : ∀ k e w,
  is_click e = true →
  (∀ x e' h, x ∈ ls → P h → P (x.2 e' h).1) →
  (∀ item h, P h → P (setState item WidgetState.Pressed h)) →
  P (heap w) → P (heap (for_listeners k ls e w)).
Proof.
  induction ls as [|[item cb] ls IH]; intros k e w Hc Hcb Hset HP; simpl; [done|].
  apply IH; [done| |done|].
  - intros x e' h Hx. apply Hcb. by apply list_elem_of_further.
  - destruct (listener_step k item cb e w) as (_ & _ & _ & _ & _ & ->).
    rewrite Hc. apply Hset. apply (Hcb (item, cb)); [apply list_elem_of_here|done].
Qed.

(** On any other event the loop keeps what the callbacks keep. *)
Lemma for_listeners_other_keeps (P : Heap Env → Prop) ls : ∀ k e w,
  is_click e = false →
  (∀ x e' h, x ∈ ls → P h → P (x.2 e' h).1) →
  P (heap w) → P (heap (for_listeners k ls e w)).
Proof.
  induction ls as [|[item cb] ls IH]; intros k e w Hc Hcb HP; simpl; [done|].
  apply IH; [done| |].
  - intros x e' h Hx. apply Hcb. by apply list_elem_of_further.
  - destruct (listener_step k item cb e w) as (_ & _ & _ & _ & _ & ->).
    rewrite Hc. apply (Hcb (item, cb)); [apply list_elem_of_here|done].
Qed.

(** Callbacks that queue nothing leave no [Queued] entry. *)
Lemma for_listeners_quiet ls : ∀ k e w,
  queue_nothing ls →
  queued (log (for_listeners k ls e w)) = queued (log w).
Proof.
  induction ls as [|[item cb] ls IH]; intros k e w Hquiet; simpl; [done|].
  rewrite IH by (intros x e' h Hx; apply Hquiet; by apply list_elem_of_further).
  destruct (listener_step k item cb e w) as (l & -> & -> & _).
  pose proof (Hquiet (item, cb) e (heap w) (list_elem_of_here _ _)) as Hp.
  simpl in Hp. rewrite Hp.
  read_log. destruct (is_click e); simpl; by rewrite app_nil_r.
Qed.

End ListenerFacts.

(** ** The dispatch loop *)

Section PassFacts.
Context {Env : Type}.
Implicit Types (w : World Env) (e : Event) (h : Heap Env)
  (cb : Callback Env) (ls : list (ItemRef * Callback Env)).

Lemma expected_invocations_app n es1 es2 :
  expected_invocations n (es1 ++ es2)
  = expected_invocations n es1 ++ expected_invocations n es2.
Proof. unfold expected_invocations. apply bind_app. Qed.

Lemma expected_invocations_one n e :
  expected_invocations n [e] = (λ k, (k, e)) <$> seq 0 n.
Proof. unfold expected_invocations. simpl. by rewrite app_nil_r. Qed.

Lemma pass_log_refl w : pass_log w [] w.
Proof.
  unfold pass_log. rewrite !app_nil_r. simpl. split_and!; try done.
  intros i s c H. by apply elem_of_nil in H.
Qed.

Lemma pass_log_trans w1 l1 w2 l2 w3 :
  pass_log w1 l1 w2 → pass_log w2 l2 w3 → pass_log w1 (l1 ++ l2) w3.
Proof.
  intros (Hl1 & Hs1 & Hq1 & Hi1 & Hc1) (Hl2 & Hs2 & Hq2 & Hi2 & Hc2).
  unfold pass_log. read_log.
  rewrite Hl2, Hl1, Hs2, Hs1, Hi1, Hi2, Hs1, expected_invocations_app.
  split_and!; try done.
  - by rewrite <- app_assoc.
  - rewrite <- app_assoc, Hq2, !app_assoc. by rewrite Hq1.
  - intros i s c H. rewrite elem_of_app.
    apply elem_of_app in H as [H|H].
    + apply Hc1 in H as (? & ? & ?). auto.
    + apply Hc2 in H as (? & ? & ?). auto.
Qed.

(** One iteration of the [while]. *)
Lemma dispatch_front_spec w :
  ∃ l, pass_log w l (dispatch_front w)
    ∧ dequeued l = take 1 (eventQueue_ (manager w)).
Proof.
  unfold dispatch_front, pass_log.
  destruct (eventQueue_ (manager w)) as [|e rest] eqn:Hq.
  - exists []. rewrite ?Hq, !app_nil_r. simpl. split_and!; try done.
    intros i s c H. by apply elem_of_nil in H.
  - set (w1 := record (Dequeued e) (with_queue rest w)).
    destruct (for_listeners_spec (listeners_ (manager w1)) 0 e w1)
      as (l & Hl & Hs & Hqu & Hd & Hi & Hc & _).
    exists (Dequeued e :: l).
    rewrite Hl, Hs, Hqu, ?Hq. read_log.
    rewrite Hd, Hi, Hc, expected_invocations_one. simpl.
    split_and!; try done.
    + by rewrite <- app_assoc.
    + intros i s c H.
      destruct (is_click e) eqn:Hclick; [|by apply elem_of_nil in H].
      apply list_elem_of_fmap in H as (x & [= -> -> ->] & _).
      split_and!; [done | apply list_elem_of_here | done].
Qed.

Lemma iterations_S k w : iterations (S k) w = dispatch_front (iterations k w).
Proof. done. Qed.

Lemma iterations_S_front k w :
  iterations (S k) w = iterations k (dispatch_front w).
Proof. unfold iterations. apply Nat.iter_succ_r. Qed.

(** Any number of iterations. *)
Lemma iterations_spec k w : ∃ l, pass_log w l (iterations k w).
Proof.
  induction k as [|k [l0 IH]].
  - exists []. apply pass_log_refl.
  - destruct (dispatch_front_spec (iterations k w)) as (l1 & H1 & _).
    exists (l0 ++ l1). rewrite iterations_S. by eapply pass_log_trans.
Qed.

(** A pass that returns has run some number of iterations and stopped on an
    empty queue. *)
Lemma dispatchEvents_iterations fuel : ∀ w w',
  dispatchEvents fuel w = Some w' →
  ∃ k, w' = iterations k w ∧ eventQueue_ (manager w') = [].
Proof.
  induction fuel as [|fuel IH]; intros w w'; simpl; [done|].
  destruct (eventQueue_ (manager w)) as [|e rest] eqn:Hq.
  - intros [= <-]. by exists 0.
  - intros (k & -> & Hk)%IH. exists (S k). by rewrite iterations_S_front.
Qed.

Lemma dispatchEvents_spec fuel w w' :
  dispatchEvents fuel w = Some w' →
  eventQueue_ (manager w') = [] ∧ ∃ l, pass_log w l w'.
Proof.
  intros (k & -> & Hk)%dispatchEvents_iterations.
  split; [done | apply iterations_spec].
Qed.

Lemma dispatch_front_empty w :
  eventQueue_ (manager w) = [] → dispatch_front w = w.
Proof. unfold dispatch_front. by intros ->. Qed.

Lemma iterations_empty k w :
  eventQueue_ (manager w) = [] → iterations k w = w.
Proof.
  intros H. induction k as [|k IH]; [done|].
  by rewrite iterations_S, IH, dispatch_front_empty.
Qed.

(** More fuel does not change what a pass returns. *)
Lemma dispatchEvents_more_fuel fuel : ∀ extra w w',
  dispatchEvents fuel w = Some w' → dispatchEvents (fuel + extra) w = Some w'.
Proof.
  induction fuel as [|fuel IH]; intros extra w w'; simpl; [done|].
  destruct (eventQueue_ (manager w)); [done | apply IH].
Qed.

(** Termination: if the callbacks queue at most [B] events however long the
    loop runs, then the loop condition fails after at most
    [length queue + B] iterations. *)
Lemma dispatchEvents_returns m : ∀ w B,
  length (eventQueue_ (manager w)) + B ≤ m →
  (∀ k, length (queued (log (iterations k w))) ≤ length (queued (log w)) + B) →
  ∃ w', dispatchEvents (S m) w = Some w'.
Proof.
  induction m as [|m IH]; intros w B Hm Hb.
  - destruct (eventQueue_ (manager w)) eqn:Hq; simpl in *; [|lia].
    rewrite Hq. by eexists.
  - cbn [dispatchEvents].
    destruct (eventQueue_ (manager w)) as [|e rest] eqn:Hq; [by eexists|].
    fold (dispatchEvents (S m) (dispatch_front w)).
    destruct (dispatch_front_spec w) as (l & (Hl & _ & Hqu & _) & Hd).
    rewrite Hq in Hd, Hqu. simpl in Hd. rewrite Hd in Hqu.
    apply (f_equal length) in Hqu. simpl in Hqu. rewrite !length_app in Hqu.
    pose proof (Hb 1) as H1.
    change (iterations 1 w) with (dispatch_front w) in H1.
    rewrite Hl, queued_app, length_app in H1.
    apply (IH _ (B - length (queued l))).
    + simpl in Hm. lia.
    + intros k. rewrite <- iterations_S_front.
      specialize (Hb (S k)). rewrite Hl, queued_app, length_app. lia.
Qed.

Lemma dispatch_front_quiet w :
  queue_nothing (listeners_ (manager w)) →
  queued (log (dispatch_front w)) = queued (log w).
Proof.
  intros Hquiet. unfold dispatch_front.
  destruct (eventQueue_ (manager w)) as [|e rest]; [done|].
  rewrite for_listeners_quiet by done. simpl. read_log. by rewrite app_nil_r.
Qed.

Lemma iterations_quiet k w :
  queue_nothing (listeners_ (manager w)) →
  queued (log (iterations k w)) = queued (log w).
Proof.
  intros Hquiet. induction k as [|k IH]; [done|].
  rewrite iterations_S, dispatch_front_quiet; [done|].
  destruct (iterations_spec k w) as (l & _ & -> & _). done.
Qed.

(** With such callbacks the pass returns once it has dequeued what was
    waiting. *)
Lemma dispatchEvents_quiet_returns w :
  queue_nothing (listeners_ (manager w)) →
  ∃ w', dispatchEvents (S (length (eventQueue_ (manager w)))) w = Some w'
    ∧ queued (log w') = queued (log w).
Proof.
  intros Hquiet.
  destruct (dispatchEvents_returns (length (eventQueue_ (manager w))) w 0)
    as [w' Hrun]; [lia | |].
  - intros k. rewrite iterations_quiet by done. lia.
  - exists w'. split; [done|].
    apply dispatchEvents_iterations in Hrun as (k & -> & _).
    by apply iterations_quiet.
Qed.

(** A callback that queues its event again keeps the loop going for ever:
    no amount of fuel lets the pass return. *)
Lemma requeue_never_returns fuel : ∀ (w : World unit) e,
  listeners_ (manager w) = [(1, Scenario.again)] →
  eventQueue_ (manager w) = [e] →
  dispatchEvents fuel w = None.
Proof.
  induction fuel as [|fuel IH]; intros w e Hl Hq; simpl; [done|].
  rewrite Hq. unfold dispatch_front. rewrite Hq. simpl. rewrite Hl. simpl.
  destruct (listener_step 0 1 Scenario.again e
              (record (Dequeued e) (with_queue [] w))) as (l & _ & _ & Hl' & Hq' & _).
  eapply IH; [rewrite Hl'; simpl; exact Hl | rewrite Hq'; reflexivity].
Qed.

End PassFacts.

(** ** The heap after a pass *)

Section ReplayFacts.
Context {Env : Type}.
Implicit Types (w : World Env) (e : Event) (h : Heap Env)
  (cb : Callback Env) (ls : list (ItemRef * Callback Env)).

Lemma replays_refl w : replays w [] w.
Proof. unfold replays. rewrite !app_nil_r. split_and!; [done..|]. intros acc. simpl. by rewrite app_nil_r. Qed.

Lemma replays_trans w1 l1 w2 l2 w3 :
  replays w1 l1 w2 → replays w2 l2 w3 → replays w1 (l1 ++ l2) w3.
Proof.
  intros (Hl1 & Hs1 & Hr1) (Hl2 & Hs2 & Hr2). unfold replays.
  rewrite Hl2, Hl1, Hs2, Hs1, <- app_assoc. split_and!; [done..|].
  intros acc. rewrite invocations_app, queued_app, foldl_app, Hr1.
  rewrite <- Hs1, Hr2. by rewrite <- app_assoc.
Qed.

(** The listener loop from listener number [length pre] on, where [pre] are
    the listeners already served. *)
Lemma for_listeners_replays ls' : ∀ pre e w,
  listeners_ (manager w) = pre ++ ls' →
  replays w (drop (length (log w)) (log (for_listeners (length pre) ls' e w)))
    (for_listeners (length pre) ls' e w).
Proof.
  induction ls' as [|[item cb] ls' IH]; intros pre e w Hls; simpl.
  { rewrite drop_all. apply replays_refl. }
  destruct (listener_step (length pre) item cb e w) as (l1 & Hlog & Hl1 & Hs & _ & Hh).
  set (w1 := update_item_state item e (invoke (length pre) cb e w)) in *.
  assert (H1 : replays w (Invoked (length pre) e
                            :: (Queued <$> (cb e (heap w)).2) ++ l1) w1).
  { unfold replays. split_and!; [done..|]. intros acc.
    read_log. simpl. unfold apply_listener. simpl.
    rewrite Hls, list_lookup_middle by done. rewrite Hh.
    destruct (is_click e); subst l1; read_log; simpl; by rewrite ?app_nil_r. }
  assert (H2 := IH (pre ++ [(item, cb)]) e w1).
  rewrite length_app in H2. simpl in H2. rewrite Nat.add_1_r in H2.
  specialize (H2 ltac:(by rewrite Hs, Hls, <- app_assoc)).
  pose proof (replays_trans _ _ _ _ _ H1 H2) as H.
  destruct H as (Hl & Hrest). rewrite Hl, drop_app_length.
  by split.
Qed.

Lemma dispatch_front_replays w :
  replays w (drop (length (log w)) (log (dispatch_front w))) (dispatch_front w).
Proof.
  unfold dispatch_front.
  destruct (eventQueue_ (manager w)) as [|e rest] eqn:Hq.
  { rewrite drop_all. apply replays_refl. }
  set (w1 := record (Dequeued e) (with_queue rest w)).
  assert (H1 : replays w [Dequeued e] w1).
  { unfold replays. split_and!; [done..|]. intros acc. simpl. by rewrite app_nil_r. }
  pose proof (for_listeners_replays (listeners_ (manager w1)) [] e w1 eq_refl) as H2.
  pose proof (replays_trans _ _ _ _ _ H1 H2) as H.
  destruct H as (Hl & Hrest). simpl in Hl |- *. rewrite Hl, drop_app_length.
  by split.
Qed.

Lemma iterations_replays k w :
  replays w (drop (length (log w)) (log (iterations k w))) (iterations k w).
Proof.
  induction k as [|k IH].
  { simpl. rewrite drop_all. apply replays_refl. }
  rewrite iterations_S.
  pose proof (replays_trans _ _ _ _ _ IH (dispatch_front_replays (iterations k w))) as H.
  destruct H as (Hl & Hrest). rewrite Hl, drop_app_length. by split.
Qed.

(** A pass that returns: its log, read as in [pass_log], also tells what
    happened to the heap. *)
Lemma dispatchEvents_replays fuel w w' :
  dispatchEvents fuel w = Some w' →
  eventQueue_ (manager w') = []
  ∧ ∃ l, pass_log w l w' ∧ replays w l w'.
Proof.
  intros (k & -> & Hk)%dispatchEvents_iterations. split; [done|].
  destruct (iterations_spec k w) as (l & Hp).
  exists l. split; [done|].
  pose proof (iterations_replays k w) as Hr.
  destruct Hp as (Hl & _). rewrite Hl, drop_app_length in Hr. done.
Qed.

End ReplayFacts.

(** ** The dispatch pass *)

Section DispatchClaims.
Context {Env : Type}.
Implicit Types (w : World Env) (e : Event) (h : Heap Env)
  (cb : Callback Env) (ls : list (ItemRef * Callback Env)).

(** A pass over queued events that returns: the log, and the heap it stands
    for. *)
Lemma returned_pass ls h es fuel w' :
  dispatchEvents fuel (queueEvents es (fresh ls h)) = Some w' →
  invocations (log w') = expected_invocations (length ls) (queued (log w'))
  ∧ dequeued (log w') = queued (log w')
  ∧ es `prefix_of` queued (log w')
  ∧ replay ls (expected_invocations (length ls) (queued (log w'))) h
    = (heap w', drop (length es) (queued (log w'))).
Proof.
  destruct (queueEvents_spec es (fresh ls h)) as (Hh0 & Hs0 & Hq0 & Hl0).
  simpl in Hh0, Hs0, Hq0, Hl0.
  intros (Hq & l & (Hl & _ & Hqu & Hi & _) & (_ & _ & Hr))%dispatchEvents_replays.
  rewrite Hs0 in Hi, Hr. rewrite Hq, Hq0, app_nil_r in Hqu. rewrite Hh0 in Hr.
  rewrite Hl, Hl0. read_log. simpl.
  rewrite Hi, Hqu. split_and!; [done | done | by exists (queued l) |].
  unfold replay. rewrite <- Hqu, <- Hi, Hr, Hqu. simpl.
  by rewrite drop_app_length.
Qed.

(** With callbacks that queue nothing the pass returns, and has called
    exactly the listeners of [expected_invocations]. *)
Lemma quiet_pass ls h es :
  queue_nothing ls →
  ∃ w', dispatchEvents (S (length es)) (queueEvents es (fresh ls h)) = Some w'
    ∧ invocations (log w') = expected_invocations (length ls) es
    ∧ dequeued (log w') = es
    ∧ heap w' = (replay ls (expected_invocations (length ls) es) h).1.
Proof.
  destruct (queueEvents_spec es (fresh ls h)) as (_ & Hs0 & Hq0 & Hl0).
  simpl in Hs0, Hq0, Hl0.
  intros Hquiet.
  destruct (dispatchEvents_quiet_returns (queueEvents es (fresh ls h)))
    as (w' & Hrun & Hqd); [by rewrite Hs0|].
  rewrite Hq0 in Hrun. exists w'. split; [done|].
  destruct (returned_pass _ _ _ _ _ Hrun) as (Hi & Hd & _ & Hr).
  rewrite Hl0, queued_Queued in Hqd. rewrite Hqd in Hi, Hd, Hr.
  split_and!; [done | done |]. by rewrite Hr.
Qed.

(** Claim C3: after any run of [queueEvent] calls on a manager with any
    listeners, a call of [dispatchEvents] that returns has called, for each
    event passed to [queueEvent] (before the call or by a callback during
    it), in the order of those calls, the callback of each listener exactly
    once, in registration order; the events queued before the call come
    first. The calls are real: the heap at return is the one obtained by
    applying those callbacks (each followed by the state rule for its item)
    in that order to the heap at the start, and the events queued during the
    pass are the ones those callbacks queue. When no callback queues
    anything the call does return, after one iteration per queued event, and
    the callbacks applied are exactly those for the queued events. *)
Theorem dispatch_invokes_listeners_once_per_event_fifo ls h es :
  (∀ fuel w',
     dispatchEvents fuel (queueEvents es (fresh ls h)) = Some w' →
     invocations (log w') = expected_invocations (length ls) (queued (log w'))
     ∧ dequeued (log w') = queued (log w')
     ∧ es `prefix_of` queued (log w')
     ∧ replay ls (expected_invocations (length ls) (queued (log w'))) h
       = (heap w', drop (length es) (queued (log w'))))
  ∧ (queue_nothing ls →
     ∃ w', dispatchEvents (S (length es)) (queueEvents es (fresh ls h)) = Some w'
       ∧ invocations (log w') = expected_invocations (length ls) es
       ∧ dequeued (log w') = es
       ∧ heap w' = (replay ls (expected_invocations (length ls) es) h).1).
Proof. split; [apply returned_pass | apply quiet_pass]. Qed.

Lemma not_mouse_not_click e :
  dynamic_cast_ZMouseEvent e = None → is_click e = false.
Proof. unfold is_click. by intros ->. Qed.

(** Events that are not clicks leave alone what the callbacks leave
    alone. *)
Lemma dispatchEvents_other_keeps (P : Heap Env → Prop) fuel : ∀ w w' l,
  dispatchEvents fuel w = Some w' →
  log w' = log w ++ l →
  Forall (λ e, is_click e = false) (eventQueue_ (manager w) ++ queued l) →
  (∀ x e h, x ∈ listeners_ (manager w) → P h → P (x.2 e h).1) →
  P (heap w) → P (heap w').
Proof.
  induction fuel as [|fuel IH]; intros w w' l; simpl; [done|].
  destruct (eventQueue_ (manager w)) as [|e rest] eqn:Hq.
  { by intros [= <-]. }
  intros Hrun Hlog Hall Hcb HP.
  destruct (dispatch_front_spec w) as (l1 & (Hl1 & Hs1 & Hq1 & _) & Hd1).
  destruct (dispatchEvents_spec _ _ _ Hrun) as (_ & l2 & Hl2 & _).
  rewrite Hq in Hd1, Hq1. simpl in Hd1. rewrite Hd1 in Hq1.
  injection Hq1 as Hq1.
  rewrite Hl2, Hl1, <- app_assoc in Hlog. apply app_inv_head in Hlog as <-.
  rewrite queued_app in Hall. simpl in Hall.
  apply Forall_cons in Hall as [He Hall].
  apply (IH _ _ l2 Hrun Hl2).
  - by rewrite Hq1, <- app_assoc.
  - by rewrite Hs1.
  - unfold dispatch_front. rewrite Hq.
    by apply for_listeners_other_keeps.
Qed.

(** Claim C4: no event that fails the cast of line 22 ever makes the
    dispatch loop change an item's state: every [setState] call of a pass is
    made while a mouse event is being dispatched. So when every event that
    is in the queue during the pass, at its start or queued by a callback, is
    not a mouse event, the loop makes no [setState] call at all, and if the
    callbacks leave the item states alone every item is in the state it was
    in before. *)
Theorem non_mouse_events_change_no_item_state fuel w w' l :
  dispatchEvents fuel w = Some w' →
  log w' = log w ++ l →
  (∀ i s c, (i, s, c) ∈ state_changes l →
     is_Some (dynamic_cast_ZMouseEvent c))
  ∧ (Forall (λ e, dynamic_cast_ZMouseEvent e = None)
       (eventQueue_ (manager w) ++ queued l) →
     state_changes l = []
     ∧ ((∀ x e h, x ∈ listeners_ (manager w) →
           item_state (x.2 e h).1 = item_state h) →
        item_state (heap w') = item_state (heap w))).
Proof.
  intros Hrun Hlog.
  destruct (dispatchEvents_spec _ _ _ Hrun) as (Hq & l' & Hl' & _ & Hqu & _ & Hc).
  pose proof Hlog as Hlog'.
  rewrite Hl' in Hlog'. apply app_inv_head in Hlog' as ->.
  rewrite Hq, app_nil_r in Hqu.
  split.
  { intros i s c (_ & _ & Hclick)%Hc. by apply is_click_mouse. }
  intros Hall.
  assert (Hall' : Forall (λ e, is_click e = false)
                    (eventQueue_ (manager w) ++ queued l)).
  { eapply Forall_impl; [exact Hall|]. apply not_mouse_not_click. }
  split.
  - destruct (state_changes l) as [|[[i s] c] t] eqn:Hsc; [done|].
    destruct (Hc i s c) as (_ & Hin & Hclick); [apply list_elem_of_here|].
    rewrite Hqu in Hin.
    rewrite Forall_forall in Hall'. rewrite (Hall' _ Hin) in Hclick. done.
  - intros Hcb.
    apply (dispatchEvents_other_keeps
             (λ h, item_state h = item_state (heap w)) fuel w w' l); try done.
    intros x e h Hx <-. by apply Hcb.
Qed.

(** Whatever the events and the listeners, the only state a pass ever sets
    is [Pressed]. *)
Lemma dispatch_only_sets_Pressed fuel w w' l :
  dispatchEvents fuel w = Some w' →
  log w' = log w ++ l →
  ∀ i s c, (i, s, c) ∈ state_changes l → s = WidgetState.Pressed.
Proof.
  intros (_ & l' & Hl' & _ & _ & _ & Hc)%dispatchEvents_spec Hlog.
  rewrite Hl' in Hlog. apply app_inv_head in Hlog as ->.
  intros i s c (Hs & _)%Hc. exact Hs.
Qed.

(** Claim C7: if the callbacks queue only finitely many events during the
    pass (at most [B], however many iterations the loop makes), then
    [dispatchEvents] returns, within [length queue + B] iterations; the queue
    is then empty, and every event that was waiting or was queued during the
    pass has been dequeued and dispatched, in that order. *)
Theorem dispatchEvents_terminates_with_empty_queue w B :
  (∀ k, length (queued (log (iterations k w))) ≤ length (queued (log w)) + B) →
  ∃ w', dispatchEvents (S (length (eventQueue_ (manager w)) + B)) w = Some w'
    ∧ eventQueue_ (manager w') = []
    ∧ ∃ l, log w' = log w ++ l
        ∧ dequeued l = eventQueue_ (manager w) ++ queued l
        ∧ invocations l
          = expected_invocations (length (listeners_ (manager w))) (dequeued l).
Proof.
  intros Hb.
  destruct (dispatchEvents_returns _ w B (le_n _) Hb) as [w' Hrun].
  exists w'. split; [done|].
  destruct (dispatchEvents_spec _ _ _ Hrun) as (Hq & l & Hl & _ & Hqu & Hi & _).
  split; [done|]. exists l. rewrite Hq, app_nil_r in Hqu. by split_and!.
Qed.

(** Claim C1, amended: when the front event is a mouse event of type
    [MouseClick], the iteration that dispatches it runs the listeners in
    registration order and, directly after the callback of each listener and
    before the next listener's callback, sets the item registered with that
    listener to [Pressed] (an event names no item of its own). Such an item
    is still [Pressed] when the iteration ends unless the callback of a later
    listener changes it. *)
Theorem click_sets_each_listeners_item_after_its_callback w m rest :
  eventQueue_ (manager w) = MouseEvent m :: rest →
  type (mouse_base m) = EventType.MouseClick →
  (∀ fuel, dispatchEvents (S fuel) w = dispatchEvents fuel (dispatch_front w))
  ∧ ∃ l, log (dispatch_front w) = log w ++ Dequeued (MouseEvent m) :: l
    ∧ filter is_dispatch_action l
      = click_trace 0 (listeners_ (manager w)) (MouseEvent m)
    ∧ ∀ pre item cb post,
        listeners_ (manager w) = pre ++ (item, cb) :: post →
        (∀ x e h, x ∈ post →
           item_state h !! item = Some WidgetState.Pressed →
           item_state (x.2 e h).1 !! item = Some WidgetState.Pressed) →
        item_state (heap (dispatch_front w)) !! item = Some WidgetState.Pressed.
Proof.
  intros Hq Ht.
  assert (Hc : is_click (MouseEvent m) = true).
  { unfold is_click. simpl. by apply bool_decide_eq_true. }
  split.
  { intros fuel. simpl. by rewrite Hq. }
  unfold dispatch_front. rewrite Hq.
  set (e := MouseEvent m) in *.
  set (w1 := record (Dequeued e) (with_queue rest w)).
  destruct (for_listeners_spec (listeners_ (manager w1)) 0 e w1)
    as (l & Hl & _ & _ & _ & _ & _ & Hf).
  rewrite Hc in Hf. exists l. split_and!.
  - rewrite Hl. simpl. by rewrite <- app_assoc.
  - done.
  - intros pre item cb post Hls Hpost. simpl. rewrite Hls.
    rewrite for_listeners_app. simpl.
    apply (for_listeners_click_keeps
             (λ h, item_state h !! item = Some WidgetState.Pressed)); try done.
    + intros item' h Hh. simpl.
      destruct (decide (item' = item)) as [->|Hne].
      * apply lookup_insert_eq.
      * by rewrite lookup_insert_ne.
    + destruct (listener_step (length pre) item cb e
                  (for_listeners 0 pre e w1)) as (_ & _ & _ & _ & _ & ->).
      rewrite Hc. simpl. apply lookup_insert_eq.
Qed.

End DispatchClaims.

(** The bound of claim C7 is needed: a listener that queues each event again
    keeps the pass from returning. *)
Lemma requeued_click_never_returns fuel :
  dispatchEvents fuel Scenario.requeued_click = None.
Proof. by eapply requeue_never_returns. Qed.

(** A click and then a key press, two listeners that note their calls on
    the heap: the four calls, as the callbacks themselves recorded them. *)
Lemma dispatch_invokes_listeners_once_per_event_fifo_witness :
  ∃ w', dispatchEvents 3 Traced.noted_click_then_key = Some w'
    ∧ env (heap w')
      = [(0, Scenario.click); (1, Scenario.click);
         (0, Scenario.key); (1, Scenario.key)]
    ∧ invocations (log w')
      = [(0, Scenario.click); (1, Scenario.click);
         (0, Scenario.key); (1, Scenario.key)].
Proof.
  eexists. split; [reflexivity|].
  pose proof (proj1 (dispatch_invokes_listeners_once_per_event_fifo
                       [(1, Traced.note 0); (2, Traced.note 1)]
                       (Scenario.both_normal [])
                       [Scenario.click; Scenario.key]) 3 _ eq_refl)
    as (Hi & _ & _ & Hr).
  split; [|exact Hi].
  exact (eq_sym (f_equal (λ p, env p.1) Hr)).
Defined.

(** Two key presses, two idle listeners: no state change. *)
Lemma non_mouse_events_change_no_item_state_witness :
  ∃ w' l, dispatchEvents 3 Scenario.two_keys = Some w'
    ∧ log w' = log Scenario.two_keys ++ l
    ∧ state_changes l = []
    ∧ item_state (heap w') = item_state (heap Scenario.two_keys).
Proof.
  eexists. eexists. split; [reflexivity|]. split; [reflexivity|].
  match goal with
  | |- state_changes ?l = _ ∧ _ =>
      destruct (non_mouse_events_change_no_item_state 3 Scenario.two_keys _ l
                  eq_refl eq_refl) as [_ H]
  end.
  destruct H as [H1 H2]; [repeat constructor|].
  split; [exact H1|]. apply H2. intros x e h Hx.
  apply list_elem_of_In in Hx. simpl in Hx.
  destruct Hx as [<-|[<-|[]]]; reflexivity.
Defined.

(** The listener of [echoed_click] queues one event in all. *)
Lemma echoed_click_bound k :
  length (queued (log (iterations k Scenario.echoed_click)))
  ≤ length (queued (log Scenario.echoed_click)) + 1.
Proof.
  destruct k as [|[|k]]; [vm_compute; lia..|].
  rewrite !iterations_S_front, iterations_empty by reflexivity.
  vm_compute; lia.
Qed.

(** The click and the key press queued in answer to it are both dequeued. *)
Lemma dispatchEvents_terminates_with_empty_queue_witness :
  ∃ w', dispatchEvents 3 Scenario.echoed_click = Some w'
    ∧ eventQueue_ (manager w') = []
    ∧ dequeued (log w') = [Scenario.click; Scenario.key].
Proof.
  destruct (dispatchEvents_terminates_with_empty_queue Scenario.echoed_click 1
              echoed_click_bound) as (w' & Hrun & Hq & _).
  exists w'. split; [exact Hrun|]. split; [exact Hq|].
  vm_compute in Hrun. injection Hrun as <-. reflexivity.
Defined.

(** The item of the last listener of [observed_click] ends up [Pressed]. *)
Lemma click_sets_each_listeners_item_after_its_callback_witness :
  item_state (heap (dispatch_front Scenario.observed_click)) !! 2
  = Some WidgetState.Pressed.
Proof.
  destruct (click_sets_each_listeners_item_after_its_callback
              Scenario.observed_click
              (ZMouseEvent_new EventType.MouseClick Scenario.origin 0 None) []
              eq_refl eq_refl) as (_ & l & _ & _ & H).
  apply (H [(1, Scenario.idle)] 2 Scenario.observer []); [reflexivity|].
  intros x e h Hx. by apply elem_of_nil in Hx.
Defined.

(** Claim C1, as stated, fails: with two listeners the state of the first
    listener's item is set before the second listener has run. The second
    callback, which notes the state of item 1 when it runs, finds it
    [Pressed] although item 1 was [Normal] when the click was queued. *)
Lemma click_rule_precedes_later_listener :
  ∃ w', dispatchEvents 2 Scenario.observed_click = Some w'
    ∧ item_state (heap Scenario.observed_click) !! 1 = Some WidgetState.Normal
    ∧ env (heap w') = [Some WidgetState.Pressed]
    ∧ ¬ rule_after_listeners (log w').
Proof.
  eexists. split; [reflexivity|]. split; [reflexivity|]. split; [reflexivity|].
  intros H.
  refine (H [Queued Scenario.click; Dequeued Scenario.click; Invoked 0 Scenario.click]
            [Invoked 1 Scenario.click;
             StateSet 2 WidgetState.Pressed Scenario.click]
            1 WidgetState.Pressed Scenario.click 1 _ _);
    [reflexivity | apply list_elem_of_here].
Qed.

(** With the enumeration as it is declared, the release branch of lines
    25-26 is never taken: a [Pressed] item whose listener receives a mouse
    event stays [Pressed] whichever of the declared event types the event
    carries. *)
Lemma no_mouse_event_restores_Normal t pos btn modifier :
  (λ w, item_state (heap w) !! 1)
    <$> dispatchEvents 2 (Scenario.pressed_then_mouse t pos btn modifier)
  = Some (Some WidgetState.Pressed).
Proof. by destruct t. Qed.

(** ** The release rule *)

Section ReleaseFacts.
Context {Env : Type}.
Implicit Types (w : Ext.World Env) (e : Ext.Event) (cb : Ext.Callback Env).






End ReleaseFacts.



(** * Further facts *)

(** ** [deflate], [clamp] and [contains] *)

Section MoreGeometry.
#[local] Open Scope Z_scope.

Lemma deflate_in_range_Some (r : ZRect.t) (p : ZPadding.t) :
  ZRect.deflate_in_range r p = true →
  ZRect.deflate r p = Some (ZRect.deflate_exact r p).
Proof.
  unfold ZRect.deflate_in_range, ZRect.deflate. rewrite !andb_true_iff.
  intros [[[[[Hx Hy] Hw1] Hw] Hh1] Hh].
  rewrite (add_fits _ _ Hx), (add_fits _ _ Hy). simpl.
  rewrite (sub_fits _ _ Hw1). simpl. rewrite (sub_fits _ _ Hw). simpl.
  rewrite (sub_fits _ _ Hh1). simpl. by rewrite (sub_fits _ _ Hh).
Qed.

(** Property X1: a deflated rectangle has its left and top edges moved in by
    the left and top padding and its right and bottom edges
    ([x + width], [y + height]) moved in by the right and bottom padding. *)
Theorem deflate_moves_each_edge (r r' : ZRect.t) (p : ZPadding.t) :
  ZRect.deflate r p = Some r' →
  ZRect.x r' = ZRect.x r + ZPadding.left p
  ∧ ZRect.y r' = ZRect.y r + ZPadding.top p
  ∧ ZRect.x r' + ZRect.width r'
    = ZRect.x r + ZRect.width r - ZPadding.right p
  ∧ ZRect.y r' + ZRect.height r'
    = ZRect.y r + ZRect.height r - ZPadding.bottom p.
Proof.
  intros [_ ->]%deflate_Some_exact. simpl. lia.
Qed.

(** Property X2: [deflate] never clamps. The result has a negative width
    exactly when the left and right padding together exceed the width, and a
    negative height exactly when the top and bottom padding together exceed
    the height. *)
Theorem deflate_goes_negative (r r' : ZRect.t) (p : ZPadding.t) :
  ZRect.deflate r p = Some r' →
  (ZRect.width r' < 0 ↔ ZRect.width r < ZPadding.left p + ZPadding.right p)
  ∧ (ZRect.height r' < 0 ↔ ZRect.height r < ZPadding.top p + ZPadding.bottom p).
Proof.
  intros [_ ->]%deflate_Some_exact. simpl. lia.
Qed.


(** Property X4: with no padding a rectangle of [int]s deflates to
    itself. *)
Theorem deflate_no_padding (r : ZRect.t) :
  ZRect.wf r = true → ZRect.deflate r no_padding = Some r.
Proof.
  unfold ZRect.wf. rewrite !andb_true_iff. intros [[[Hx Hy] Hw] Hh].
  rewrite deflate_in_range_Some.
  - destruct r. unfold ZRect.deflate_exact. simpl. f_equal. f_equal; lia.
  - unfold ZRect.deflate_in_range. simpl.
    rewrite !Z.add_0_r, !Z.sub_0_r, Hx, Hy, Hw, Hh. done.
Qed.

(** ** [clamp] *)


(** The comparisons of [int] are a strict total order. *)
Lemma Z_strict_total : StrictTotal Z.ltb Z.gtb.
Proof.
  split.
  - apply Z.ltb_irrefl.
  - intros a b c Hab%Z.ltb_lt Hbc%Z.ltb_lt. apply Z.ltb_lt. lia.
  - intros a b. rewrite !Z.ltb_lt. lia.
  - apply Z.gtb_ltb.
Qed.

(** Property X5: for every type [T] on which [operator<] is a strict total
    order and [operator>] its converse, and with [min ≤ max] (that is,
    [max < min] is false), the result of [clamp] is neither below [min] nor
    above [max], [clamp] returns its argument exactly when the argument is
    neither below [min] nor above [max] already, and clamping again changes
    nothing. *)
Theorem clamp_in_range {T : Type} (lt gt : T → T → bool) (value lo hi : T) :
  StrictTotal lt gt →
  lt hi lo = false →
  lt (clamp_T lt gt value lo hi) lo = false
  ∧ lt hi (clamp_T lt gt value lo hi) = false
  ∧ (clamp_T lt gt value lo hi = value
     ↔ lt value lo = false ∧ lt hi value = false)
  ∧ clamp_T lt gt (clamp_T lt gt value lo hi) lo hi
    = clamp_T lt gt value lo hi.
Proof.
  intros [Hirr _ _ Hgt] Hle. unfold clamp_T. rewrite !Hgt.
  destruct (lt value lo) eqn:Hlo.
  - rewrite Hirr, Hle. split_and!; try done.
    split; [|by intros [? _]].
    intros <-. by rewrite Hirr in Hlo.
  - destruct (lt hi value) eqn:Hhi.
    + rewrite Hle, Hirr. split_and!; try done.
      split; [|by intros [_ ?]].
      intros <-. by rewrite Hirr in Hhi.
    + by rewrite Hlo, Hhi.
Qed.

(** Property X6: for every such [T], with the bounds the wrong way round
    ([max < min]), [clamp] returns [min] for every value below [min] and
    [max] for every other value: the result is always one of the two bounds,
    and for a value below [min] it is above [max]. *)
Theorem clamp_inverted_bounds {T : Type} (lt gt : T → T → bool)
    (value lo hi : T) :
  StrictTotal lt gt →
  lt hi lo = true →
  (lt value lo = true → clamp_T lt gt value lo hi = lo)
  ∧ (lt value lo = false → clamp_T lt gt value lo hi = hi).
Proof.
  intros [Hirr Htrans Htotal Hgt] Hlt. unfold clamp_T. split; intros Hlo.
  - by rewrite Hlo.
  - rewrite Hlo, Hgt.
    destruct (Htotal hi value) as [->|[->|Hvh]]; [done| |].
    + by rewrite Hlt in Hlo.
    + by rewrite (Htrans _ _ _ Hvh Hlt) in Hlo.
Qed.


End MoreGeometry.

(** ** [ZCircle::contains] *)

Section CircleFacts.
#[local] Open Scope Z_scope.
Implicit Types (c : ZCircle.t) (p : ZPoint.t).

Lemma int_add_Some a b s : Int.add a b = Some s ↔ s = a + b ∧ Int.fits (a + b) = true.
Proof.
  unfold Int.add. destruct (Int.fits (a + b)); split;
    [by intros [= <-] | by intros [-> _] | done | by intros [_ ?]].
Qed.

Lemma int_sub_Some a b s : Int.sub a b = Some s ↔ s = a - b ∧ Int.fits (a - b) = true.
Proof.
  unfold Int.sub. destruct (Int.fits (a - b)); split;
    [by intros [= <-] | by intros [-> _] | done | by intros [_ ?]].
Qed.

Lemma int_mul_Some a b s :
  ZCircle.mul a b = Some s ↔ s = a * b ∧ Int.fits (a * b) = true.
Proof.
  unfold ZCircle.mul. destruct (Int.fits (a * b)); split;
    [by intros [= <-] | by intros [-> _] | done | by intros [_ ?]].
Qed.

Lemma square_fits a : Int.fits (a * a) = true ↔ - ZCircle.SQRT_MAX ≤ a ≤ ZCircle.SQRT_MAX.
Proof.
  rewrite fits_iff. unfold Int.INT_MIN, Int.INT_MAX, ZCircle.SQRT_MAX. split.
  - intros [_ H]. split; nia.
  - intros [H1 H2]. split; nia.
Qed.

(** When [contains] answers, no step overflowed and the answer is the exact
    comparison. *)
Lemma contains_Some c p b :
  ZCircle.contains c p = Some b →
  let dx := ZPoint.x p - ZPoint.x (ZCircle.center c) in
  let dy := ZPoint.y p - ZPoint.y (ZCircle.center c) in
  Int.fits (dx * dx) = true ∧ Int.fits (dy * dy) = true
  ∧ Int.fits (dx * dx + dy * dy) = true
  ∧ Int.fits (ZCircle.radius c * ZCircle.radius c) = true
  ∧ b = (dx * dx + dy * dy <=? ZCircle.radius c * ZCircle.radius c).
Proof.
  unfold ZCircle.contains. intros H.
  apply bind_Some in H as (dx & [-> Hdx]%int_sub_Some & H).
  apply bind_Some in H as (dy & [-> Hdy]%int_sub_Some & H).
  apply bind_Some in H as (dx2 & [-> Hdx2]%int_mul_Some & H).
  apply bind_Some in H as (dy2 & [-> Hdy2]%int_mul_Some & H).
  apply bind_Some in H as (s & [-> Hs]%int_add_Some & H).
  apply bind_Some in H as (r2 & [-> Hr2]%int_mul_Some & H).
  injection H as <-. by split_and!.
Qed.

Lemma contains_in_range c p :
  let dx := ZPoint.x p - ZPoint.x (ZCircle.center c) in
  let dy := ZPoint.y p - ZPoint.y (ZCircle.center c) in
  Int.fits dx = true → Int.fits dy = true →
  Int.fits (dx * dx) = true → Int.fits (dy * dy) = true →
  Int.fits (dx * dx + dy * dy) = true →
  Int.fits (ZCircle.radius c * ZCircle.radius c) = true →
  ZCircle.contains c p
  = Some (dx * dx + dy * dy <=? ZCircle.radius c * ZCircle.radius c).
Proof.
  intros dx dy Hdx Hdy Hdx2 Hdy2 Hs Hr. unfold ZCircle.contains.
  rewrite (sub_fits _ _ Hdx). simpl. rewrite (sub_fits _ _ Hdy). simpl.
  unfold ZCircle.mul. fold dx dy. rewrite Hdx2, Hdy2. simpl.
  rewrite (add_fits _ _ Hs). simpl. by rewrite Hr.
Qed.

(** Property X8: [contains] has an answer only for a point within 46340 of
    the centre along each axis and a radius within 46340 of zero (beyond,
    a square overflows [int]); the answer is then the exact comparison of
    the squared distance with the squared radius. *)
Theorem contains_only_near c p b :
  ZCircle.contains c p = Some b →
  let dx := ZPoint.x p - ZPoint.x (ZCircle.center c) in
  let dy := ZPoint.y p - ZPoint.y (ZCircle.center c) in
  - 46340 ≤ dx ≤ 46340 ∧ - 46340 ≤ dy ≤ 46340
  ∧ - 46340 ≤ ZCircle.radius c ≤ 46340
  ∧ (b = true ↔ dx * dx + dy * dy ≤ ZCircle.radius c * ZCircle.radius c).
Proof.
  intros (Hdx & Hdy & _ & Hr & ->)%contains_Some dx dy.
  apply square_fits in Hdx, Hdy, Hr. unfold ZCircle.SQRT_MAX in *.
  split_and!; lia.
Qed.

(** Property X9: only the square of the radius is used, so a circle with a
    negative radius contains exactly what the circle with the opposite
    radius contains. *)
Theorem contains_negative_radius (centre : ZPoint.t) (r : Z) p :
  ZCircle.contains {| ZCircle.center := centre; ZCircle.radius := - r |} p
  = ZCircle.contains {| ZCircle.center := centre; ZCircle.radius := r |} p.
Proof. unfold ZCircle.contains, ZCircle.mul. simpl. by rewrite Z.mul_opp_opp. Qed.

(** Property X10: a circle contains its own centre whenever the square of
    its radius is an [int], and has no answer even for its centre when it is
    not; a circle of radius 0 contains no other point. *)
Theorem contains_centre c :
  ZCircle.contains c (ZCircle.center c)
  = (if Int.fits (ZCircle.radius c * ZCircle.radius c) then Some true else None)
  ∧ (ZCircle.radius c = 0 →
     ∀ p, ZCircle.contains c p = Some true → p = ZCircle.center c).
Proof.
  split.
  - unfold ZCircle.contains, Int.sub, ZCircle.mul, Int.add.
    rewrite !Z.sub_diag. simpl.
    destruct (Int.fits _); simpl; [|done].
    f_equal. apply Z.leb_le. nia.
  - intros Hr p (_ & _ & _ & _ & H)%contains_Some.
    symmetry in H. apply Z.leb_le in H. rewrite Hr in H.
    destruct p as [px py], (ZCircle.center c) as [cx cy]. simpl in *.
    pose proof (Z.square_nonneg (px - cx)) as Hx.
    pose proof (Z.square_nonneg (py - cy)) as Hy.
    assert (Hx0 : (px - cx) * (px - cx) = 0) by lia.
    assert (Hy0 : (py - cy) * (py - cy) = 0) by lia.
    apply Z.mul_eq_0 in Hx0, Hy0. f_equal; lia.
Qed.

(** Property X11: a point inside a circle is inside every circle about the
    same centre with a larger radius, as long as that radius is at most
    46340. *)
Theorem contains_monotone (centre : ZPoint.t) (r r' : Z) p :
  0 ≤ r ≤ r' → r' ≤ 46340 →
  ZCircle.contains {| ZCircle.center := centre; ZCircle.radius := r |} p
  = Some true →
  ZCircle.contains {| ZCircle.center := centre; ZCircle.radius := r' |} p
  = Some true.
Proof.
  intros Hr Hr' H.
  pose proof H as (Hdx2 & Hdy2 & Hs & _ & Hb)%contains_Some. simpl in *.
  assert (Hdx : Int.fits (ZPoint.x p - ZPoint.x centre) = true).
  { unfold ZCircle.contains in H. simpl in H.
    destruct (Int.sub (ZPoint.x p) (ZPoint.x centre)) eqn:E; [|done].
    by apply int_sub_Some in E as [_ ?]. }
  assert (Hdy : Int.fits (ZPoint.y p - ZPoint.y centre) = true).
  { unfold ZCircle.contains in H. simpl in H.
    destruct (Int.sub (ZPoint.x p) (ZPoint.x centre)); [|done]. simpl in H.
    destruct (Int.sub (ZPoint.y p) (ZPoint.y centre)) eqn:E; [|done].
    by apply int_sub_Some in E as [_ ?]. }
  rewrite contains_in_range; simpl; try done.
  - f_equal. symmetry in Hb. apply Z.leb_le in Hb. apply Z.leb_le. nia.
  - apply square_fits. unfold ZCircle.SQRT_MAX. lia.
Qed.

End CircleFacts.

Lemma contains_only_near_witness :
  ZCircle.contains Sample.circle5 Sample.rim_point = Some true
  ∧ (3 * 3 + 4 * 4 ≤ 5 * 5)%Z.
Proof.
  split; [reflexivity|].
  pose proof (contains_only_near Sample.circle5 Sample.rim_point true eq_refl)
    as (_ & _ & _ & H).
  apply H. reflexivity.
Defined.

Lemma contains_monotone_witness :
  ZCircle.contains Sample.circle7 Sample.rim_point = Some true.
Proof.
  apply (contains_monotone {| ZPoint.x := 1; ZPoint.y := 1 |} 5 7 Sample.rim_point);
    [lia | lia | reflexivity].
Defined.

(** ** More on the graphics view *)

Section MoreViewFacts.
Context {Backend : Type}.
Implicit Types (view : ZGraphicsView Backend) (x y : ItemRef).

Lemma view_eq view view' :
  backend_ view = backend_ view' →
  renderMode_ view = renderMode_ view' →
  items_ view = items_ view' →
  view = view'.
Proof. destruct view, view'. simpl. by intros -> -> ->. Qed.

Lemma removeItem_eq view x l :
  filter (λ y, y ≠ x) (items_ view) = l →
  removeItem x view
  = {| backend_ := backend_ view; renderMode_ := renderMode_ view; items_ := l |}.
Proof.
  intros <-. destruct (removeItem_frame view x) as [Hb Hm].
  apply view_eq; simpl; [done | done | apply removeItem_items].
Qed.

(** Property X12: removing an item that is not in the view changes
    nothing. *)
Theorem removeItem_absent view x :
  x ∉ items_ view → removeItem x view = view.
Proof.
  intros Hx. rewrite (removeItem_eq view x (items_ view)) by by apply filter_absent.
  by destruct view.
Qed.

(** Property X13: after [removeItem(x)] no occurrence of [x] is left, every
    other item is in the view exactly if it was before, and removing [x]
    once more changes nothing. *)
Theorem removeItem_complete view x :
  (x ∉ items_ (removeItem x view))
  ∧ (∀ y, y ≠ x → (y ∈ items_ (removeItem x view) ↔ y ∈ items_ view))
  ∧ removeItem x (removeItem x view) = removeItem x view.
Proof.
  assert (Hx : x ∉ items_ (removeItem x view)).
  { rewrite removeItem_items. intros [H _]%list_elem_of_filter. by apply H. }
  split_and!; [done | |].
  - intros y Hy. rewrite removeItem_items, list_elem_of_filter. tauto.
  - rewrite (removeItem_eq (removeItem x view) x (items_ (removeItem x view)))
      by by apply filter_absent.
    by destruct (removeItem x view).
Qed.

(** Property X14: the order in which two items are removed does not
    matter. *)
Theorem removeItem_commute view x y :
  removeItem x (removeItem y view) = removeItem y (removeItem x view).
Proof.
  destruct (removeItem_frame view x) as [Hbx Hmx].
  destruct (removeItem_frame view y) as [Hby Hmy].
  destruct (removeItem_frame (removeItem y view) x) as [Hb1 Hm1].
  destruct (removeItem_frame (removeItem x view) y) as [Hb2 Hm2].
  apply view_eq; [congruence | congruence |].
  rewrite !removeItem_items, !list_filter_filter.
  apply list_filter_iff. tauto.
Qed.

(** Property X15: [removeItem(x)] shortens the paint-order sequence by the
    number of occurrences of [x]. *)
Theorem removeItem_length view x :
  length (items_ (removeItem x view)) + length (filter (λ y, y = x) (items_ view))
  = length (items_ view).
Proof.
  rewrite removeItem_items.
  induction (items_ view) as [|y l IH]; [done|].
  rewrite !filter_cons. destruct (decide (y = x)) as [->|Hne].
  - rewrite decide_False by (intros H; by apply H). simpl. lia.
  - rewrite decide_True by done. simpl. lia.
Qed.

Variable draw : ItemRef → Backend → Backend.

Lemma render_eq view :
  render draw view
  = ({| backend_ := foldl (λ b item, draw item b) (backend_ view) (items_ view);
        renderMode_ := renderMode_ view; items_ := items_ view |},
     items_ view).
Proof. unfold render. by rewrite render_loop_spec. Qed.

(** Property X16: an item added with [addItem] is drawn last: [render]
    first draws what it drew before, on the same backend states, and then the
    new item. *)
Theorem addItem_draws_last view x :
  (render draw (addItem x view)).2 = (render draw view).2 ++ [x]
  ∧ backend_ (render draw (addItem x view)).1
    = draw x (backend_ (render draw view).1).
Proof.
  rewrite !render_eq. simpl. unfold Vec.push_back.
  by rewrite foldl_app.
Qed.


(** Property X18: the constructor calls [initialize] once, with the mode it
    stores, and leaves the view without items: a [render] right after
    construction draws nothing and leaves the backend as [initialize] left
    it, and after one [addItem(x)] it draws [x] alone on that backend. *)
Theorem fresh_view_renders_nothing
    (initialize : RenderMode.t → Backend → Backend) (b : Backend)
    (mode : RenderMode.t) x :
  let view := ZGraphicsView_new initialize b mode in
  render draw view = (view, [])
  ∧ backend_ view = initialize mode b
  ∧ renderMode_ view = mode
  ∧ (render draw (addItem x view)).2 = [x]
  ∧ backend_ (render draw (addItem x view)).1 = draw x (initialize mode b).
Proof. intros view. rewrite !render_eq. by split_and!. Qed.

End MoreViewFacts.

(** ** More on the event manager *)

Section MoreManagerFacts.
Context {Env : Type}.
Implicit Types (w : World Env) (e : Event) (h : Heap Env)
  (cb : Callback Env) (ls : list (ItemRef * Callback Env)).

(** A property of the heap that the callbacks of [ls] keep, and that setting
    an item registered in [ls] to [Pressed] keeps, survives the listener
    loop on any event. *)
Lemma for_listeners_keeps (P : Heap Env → Prop) ls : ∀ k e w,
  (∀ x e' h, x ∈ ls → P h → P (x.2 e' h).1) →
  (∀ x h, x ∈ ls → P h → P (setState x.1 WidgetState.Pressed h)) →
  P (heap w) → P (heap (for_listeners k ls e w)).
Proof.
  induction ls as [|[item cb] ls IH]; intros k e w Hcb Hset HP; simpl; [done|].
  apply IH.
  - intros x e' h Hx. apply Hcb. by apply list_elem_of_further.
  - intros x h Hx. apply Hset. by apply list_elem_of_further.
  - destruct (listener_step k item cb e w) as (_ & _ & _ & _ & _ & ->).
    assert (Hcb1 : P (cb e (heap w)).1).
    { apply (Hcb (item, cb)); [apply list_elem_of_here | done]. }
    destruct (is_click e); [|done].
    apply (Hset (item, cb)); [apply list_elem_of_here | done].
Qed.

Lemma dispatch_front_keeps (P : Heap Env → Prop) w :
  (∀ x e' h, x ∈ listeners_ (manager w) → P h → P (x.2 e' h).1) →
  (∀ x h, x ∈ listeners_ (manager w) → P h →
     P (setState x.1 WidgetState.Pressed h)) →
  P (heap w) → P (heap (dispatch_front w)).
Proof.
  intros Hcb Hset HP. unfold dispatch_front.
  destruct (eventQueue_ (manager w)) as [|e rest]; [done|].
  by apply for_listeners_keeps.
Qed.

Lemma iterations_listeners k w :
  listeners_ (manager (iterations k w)) = listeners_ (manager w).
Proof. by destruct (iterations_spec k w) as (l & _ & -> & _). Qed.

Lemma iterations_keeps (P : Heap Env → Prop) k w :
  (∀ x e' h, x ∈ listeners_ (manager w) → P h → P (x.2 e' h).1) →
  (∀ x h, x ∈ listeners_ (manager w) → P h →
     P (setState x.1 WidgetState.Pressed h)) →
  P (heap w) → P (heap (iterations k w)).
Proof.
  intros Hcb Hset HP. induction k as [|k IH]; [done|].
  rewrite iterations_S.
  apply dispatch_front_keeps; rewrite ?iterations_listeners; done.
Qed.

Lemma dispatchEvents_keeps (P : Heap Env → Prop) fuel w w' :
  dispatchEvents fuel w = Some w' →
  (∀ x e' h, x ∈ listeners_ (manager w) → P h → P (x.2 e' h).1) →
  (∀ x h, x ∈ listeners_ (manager w) → P h →
     P (setState x.1 WidgetState.Pressed h)) →
  P (heap w) → P (heap w').
Proof.
  intros (k & -> & _)%dispatchEvents_iterations. apply iterations_keeps.
Qed.

(** Property X19: events are dispatched once. After a pass has returned, a
    further pass returns at once and changes nothing; and a pass over events
    queued afterwards dequeues those events (and what callbacks queue
    meanwhile), never an event of the earlier pass. *)
Theorem events_are_dispatched_once fuel w w1 :
  dispatchEvents fuel w = Some w1 →
  (∀ n, dispatchEvents (S n) w1 = Some w1)
  ∧ (∀ es fuel' w2,
       dispatchEvents fuel' (queueEvents es w1) = Some w2 →
       ∃ l, log w2 = log w1 ++ (Queued <$> es) ++ l
         ∧ dequeued l = es ++ queued l).
Proof.
  intros [Hq _]%dispatchEvents_spec. split.
  - intros n. simpl. by rewrite Hq.
  - intros es fuel' w2 (Hq2 & l & Hl & _ & Hqu & _)%dispatchEvents_spec.
    destruct (queueEvents_spec es w1) as (_ & _ & Hq1 & Hl1).
    exists l. rewrite Hl, Hl1, <- app_assoc. split; [done|].
    by rewrite Hq2, Hq1, Hq, app_nil_r in Hqu.
Qed.

(** Property X20: with no listener registered a pass only empties the
    queue: it returns after one iteration per waiting event, the heap is as
    it was, and nothing but the dequeuing has happened. *)
Theorem dispatch_without_listeners w :
  listeners_ (manager w) = [] →
  ∃ w', dispatchEvents (S (length (eventQueue_ (manager w)))) w = Some w'
    ∧ heap w' = heap w
    ∧ eventQueue_ (manager w') = []
    ∧ log w' = log w ++ (Dequeued <$> eventQueue_ (manager w)).
Proof.
  remember (eventQueue_ (manager w)) as q eqn:Hq.
  revert w Hq. induction q as [|e q IH]; intros w Hq Hl.
  - exists w. simpl. rewrite <- Hq, app_nil_r. done.
  - cbn [dispatchEvents length]. rewrite <- Hq.
    fold (dispatchEvents (S (length q)) (dispatch_front w)).
    unfold dispatch_front. rewrite <- Hq. simpl. rewrite Hl. simpl.
    destruct (IH (record (Dequeued e) (with_queue q w))) as (w' & Hrun & Hh & Hq' & Hlog);
      [done | done |].
    exists w'. split_and!; try done.
    rewrite Hlog. simpl. by rewrite <- app_assoc.
Qed.

Lemma expected_invocations_length n es :
  length (expected_invocations n es) = n * length es.
Proof.
  induction es as [|e es IH]; simpl; [lia|].
  change (expected_invocations n (e :: es))
    with (((λ k, (k, e)) <$> seq 0 n) ++ expected_invocations n es).
  rewrite length_app, length_fmap, length_seq, IH. lia.
Qed.

(** In the log of a pass that returns there are as many invocations as
    registrations times events dequeued. *)
Lemma logged_invocation_count fuel w w' l :
  dispatchEvents fuel w = Some w' →
  log w' = log w ++ l →
  length (invocations l)
  = length (listeners_ (manager w)) * length (dequeued l).
Proof.
  intros (_ & l' & Hl' & _ & _ & Hi & _)%dispatchEvents_spec Hlog.
  rewrite Hl' in Hlog. apply app_inv_head in Hlog as ->.
  by rewrite Hi, expected_invocations_length.
Qed.

(** Property X22: the dispatch loop touches no item but those registered
    with a listener, and sets nothing but [Pressed]: if the callbacks leave
    the item states alone, then after a pass every item is in the state it
    was in, or is registered and [Pressed]. *)
Theorem dispatch_frames_unregistered_items fuel w w' :
  dispatchEvents fuel w = Some w' →
  keep_item_states (listeners_ (manager w)) →
  ∀ i, item_state (heap w') !! i = item_state (heap w) !! i
       ∨ (i ∈ registered (listeners_ (manager w))
          ∧ item_state (heap w') !! i = Some WidgetState.Pressed).
Proof.
  intros Hrun Hkeep.
  apply (dispatchEvents_keeps
           (λ h, ∀ i, item_state h !! i = item_state (heap w) !! i
                      ∨ (i ∈ registered (listeners_ (manager w))
                         ∧ item_state h !! i = Some WidgetState.Pressed))
           fuel w w' Hrun).
  - intros x e' h Hx HP i. rewrite (Hkeep x e' h Hx). apply HP.
  - intros [item cb] h Hx HP i. simpl.
    destruct (decide (item = i)) as [<-|Hne].
    + right. split; [|apply lookup_insert_eq].
      unfold registered. apply list_elem_of_fmap. by exists (item, cb).
    + rewrite lookup_insert_ne by done. apply HP.
  - intros i. by left.
Qed.

(** Property X23: the dispatch loop never takes an item out of [Pressed]:
    if no callback does, an item that is [Pressed] before a pass is
    [Pressed] after it, whatever the events. *)
Theorem pressed_stays_pressed fuel w w' i :
  dispatchEvents fuel w = Some w' →
  keep_pressed (listeners_ (manager w)) →
  item_state (heap w) !! i = Some WidgetState.Pressed →
  item_state (heap w') !! i = Some WidgetState.Pressed.
Proof.
  intros Hrun Hkeep.
  apply (dispatchEvents_keeps
           (λ h, item_state h !! i = Some WidgetState.Pressed) fuel w w' Hrun).
  - intros x e' h Hx HP. by apply Hkeep.
  - intros [item cb] h Hx HP. simpl.
    destruct (decide (item = i)) as [<-|Hne].
    + apply lookup_insert_eq.
    + by rewrite lookup_insert_ne.
Qed.

End MoreManagerFacts.

Lemma expected_invocations_bound n es inv :
  inv ∈ expected_invocations n es → inv.1 < n.
Proof.
  unfold expected_invocations.
  intros (e & (k & -> & Hk)%list_elem_of_fmap & _)%list_elem_of_bind.
  apply elem_of_seq in Hk. simpl. lia.
Qed.

Lemma ticking_queue_nothing items : queue_nothing (Traced.ticking items).
Proof. intros x e h (i & -> & _)%list_elem_of_fmap. reflexivity. Qed.

(** Every call of a counting callback adds one to the counter. *)
Lemma replay_ticking items invs : ∀ (h : Heap nat) acc,
  (∀ inv, inv ∈ invs → inv.1 < length items) →
  env (foldl (apply_listener (Traced.ticking items)) (h, acc) invs).1
  = env h + length invs.
Proof.
  induction invs as [|[k e] invs IH]; intros h acc Hk; simpl; [lia|].
  destruct (lookup_lt_is_Some_2 items k) as [i Hi].
  { apply (Hk (k, e)), list_elem_of_here. }
  destruct (apply_listener (Traced.ticking items) (h, acc) (k, e))
    as [h' acc'] eqn:E.
  rewrite IH by (intros inv Hin; apply Hk; by apply list_elem_of_further).
  unfold apply_listener, Traced.ticking in E. simpl in E.
  rewrite list_lookup_fmap, Hi in E. simpl in E.
  injection E as <- _. destruct (is_click e); simpl; lia.
Qed.

(** Property X21: the callbacks are called once per registration and
    event. When every registration holds a callback that adds one to a
    counter on the heap, a pass over the queued events returns with the
    counter raised by the number of registrations times the number of
    events; an item registered twice counts twice. *)
Theorem invocation_count (items : list ItemRef) (es : list Event) (h : Heap nat) :
  ∃ w', dispatchEvents (S (length es))
          (queueEvents es (fresh (Traced.ticking items) h)) = Some w'
    ∧ env (heap w') = env h + length items * length es.
Proof.
  destruct (quiet_pass (Traced.ticking items) h es (ticking_queue_nothing items))
    as (w' & Hrun & _ & _ & Hh).
  exists w'. split; [done|].
  rewrite Hh. unfold replay, Traced.ticking. rewrite length_fmap.
  rewrite (replay_ticking items).
  - by rewrite expected_invocations_length.
  - apply expected_invocations_bound.
Qed.

Section ClickAndRegistration.
Context {Env : Type}.
Implicit Types (w : World Env) (e : Event) (h : Heap Env)
  (cb : Callback Env) (ls : list (ItemRef * Callback Env)).

Lemma pressed_kept_by_setState (i item : ItemRef) h :
  item_state h !! i = Some WidgetState.Pressed →
  item_state (setState item WidgetState.Pressed h) !! i = Some WidgetState.Pressed.
Proof.
  intros H. simpl. destruct (decide (item = i)) as [<-|Hne].
  - apply lookup_insert_eq.
  - by rewrite lookup_insert_ne.
Qed.

(** On a click the listener loop leaves every item of its listeners
    [Pressed], if no callback takes an item out of [Pressed]. *)
Lemma for_listeners_click_presses_all ls k e w :
  is_click e = true → keep_pressed ls →
  ∀ i, i ∈ registered ls →
    item_state (heap (for_listeners k ls e w)) !! i = Some WidgetState.Pressed.
Proof.
  intros Hc Hkeep i ([item cb] & -> & Hin)%list_elem_of_fmap. simpl.
  apply list_elem_of_split in Hin as (pre & post & ->).
  rewrite for_listeners_app. simpl.
  apply (for_listeners_keeps
           (λ h, item_state h !! item = Some WidgetState.Pressed)).
  - intros x e' h Hx. apply Hkeep.
    apply elem_of_app. right. by apply list_elem_of_further.
  - intros x h _. apply pressed_kept_by_setState.
  - destruct (listener_step (k + length pre) item cb e
                (for_listeners k pre e w)) as (_ & _ & _ & _ & _ & ->).
    rewrite Hc. simpl. apply lookup_insert_eq.
Qed.

Lemma iterations_click_presses_all k : ∀ w l,
  keep_pressed (listeners_ (manager w)) →
  log (iterations k w) = log w ++ l →
  (∃ e, e ∈ dequeued l ∧ is_click e = true) →
  ∀ i, i ∈ registered (listeners_ (manager w)) →
    item_state (heap (iterations k w)) !! i = Some WidgetState.Pressed.
Proof.
  induction k as [|k IH]; intros w l Hkeep Hlog (e & He & Hc) i Hi.
  { simpl in Hlog. rewrite <- (app_nil_r (log w)) in Hlog at 1.
    apply app_inv_head in Hlog as <-. by apply elem_of_nil in He. }
  destruct (iterations_spec k w) as (l0 & Hl0 & Hs0 & _).
  destruct (dispatch_front_spec (iterations k w)) as (l1 & (Hl1 & _) & Hd1).
  rewrite iterations_S in Hlog |- *.
  rewrite Hl1, Hl0, <- app_assoc in Hlog. apply app_inv_head in Hlog as <-.
  rewrite dequeued_app, elem_of_app in He. destruct He as [He|He].
  - apply (dispatch_front_keeps
             (λ h, item_state h !! i = Some WidgetState.Pressed)).
    + intros x e' h Hx. apply Hkeep. by rewrite <- Hs0.
    + intros x h _. apply pressed_kept_by_setState.
    + apply (IH w l0); eauto.
  - rewrite Hd1 in He. unfold dispatch_front.
    destruct (eventQueue_ (manager (iterations k w))) as [|e' rest];
      [by apply elem_of_nil in He|].
    simpl in He. apply list_elem_of_singleton in He as ->.
    simpl. rewrite Hs0. by apply for_listeners_click_presses_all.
Qed.

(** Property X24: once a pass has dispatched a click (a [ZMouseEvent] of
    type [MouseClick]), every item registered with a listener is [Pressed]
    when the pass returns, provided no callback takes an item out of
    [Pressed]. *)
Theorem click_presses_every_registered_item fuel w w' l e :
  dispatchEvents fuel w = Some w' →
  log w' = log w ++ l →
  keep_pressed (listeners_ (manager w)) →
  e ∈ dequeued l → is_click e = true →
  ∀ i, i ∈ registered (listeners_ (manager w)) →
    item_state (heap w') !! i = Some WidgetState.Pressed.
Proof.
  intros (k & -> & _)%dispatchEvents_iterations Hlog Hkeep He Hc.
  apply (iterations_click_presses_all k w l); eauto.
Qed.

Lemma queueEvents_registerListener item cb es : ∀ w,
  queueEvents es (registerListener item cb w)
  = registerListener item cb (queueEvents es w).
Proof. induction es as [|e es IH]; intros w; [done|]. simpl. by rewrite <- IH. Qed.

Lemma invoke_registerListener item cb k cb' e w :
  invoke k cb' e (registerListener item cb w)
  = registerListener item cb (invoke k cb' e w).
Proof.
  unfold invoke. simpl. destruct (cb' e (heap w)) as [h pushed].
  by rewrite <- queueEvents_registerListener.
Qed.

Lemma update_item_state_registerListener item cb item' e w :
  update_item_state item' e (registerListener item cb w)
  = registerListener item cb (update_item_state item' e w).
Proof.
  unfold update_item_state.
  destruct (dynamic_cast_ZMouseEvent e) as [m|]; [|done].
  destruct (decide _); [done|]. by destruct (is_MouseRelease _).
Qed.

Lemma for_listeners_registerListener item cb ls : ∀ k e w,
  for_listeners k ls e (registerListener item cb w)
  = registerListener item cb (for_listeners k ls e w).
Proof.
  induction ls as [|[item' cb'] ls IH]; intros k e w; simpl; [done|].
  by rewrite invoke_registerListener, update_item_state_registerListener, IH.
Qed.

(** Property X25: [registerListener] appends. On the next event the
    listeners registered before run exactly as they would have, and the new
    listener runs after them, numbered after them: first its callback, then
    the state rule for its item. *)
Theorem registered_listener_runs_last item cb w e rest :
  eventQueue_ (manager w) = e :: rest →
  dispatch_front (registerListener item cb w)
  = update_item_state item e
      (invoke (length (listeners_ (manager w))) cb e
         (registerListener item cb (dispatch_front w))).
Proof.
  intros Hq. unfold dispatch_front. simpl. rewrite Hq. simpl.
  rewrite for_listeners_app. simpl.
  change (record (Dequeued e) (with_queue rest (registerListener item cb w)))
    with (registerListener item cb (record (Dequeued e) (with_queue rest w))).
  by rewrite for_listeners_registerListener.
Qed.


End ClickAndRegistration.

(** ** The console stub *)

Section ConsoleFacts.
Implicit Types (cout s : string) (color : ZColor.t).

Lemma string_app_cons a (s1 s2 : string) :
  String a s1 +:+ s2 = String a (s1 +:+ s2).
Proof. reflexivity. Qed.

Lemma string_app_assoc (s1 s2 s3 : string) :
  (s1 +:+ s2) +:+ s3 = s1 +:+ (s2 +:+ s3).
Proof.
  induction s1 as [|a s1 IH]; [done|].
  by rewrite !string_app_cons, IH.
Qed.

Lemma put_from_empty cout s : DOS.put cout s = cout +:+ DOS.put "" s.
Proof. done. Qed.

Lemma put_put cout s1 s2 :
  DOS.put (cout +:+ s1) s2 = cout +:+ DOS.put s1 s2.
Proof. unfold DOS.put. apply string_app_assoc. Qed.

Lemma put_int_put cout s1 z :
  DOS.put_int (cout +:+ s1) z = cout +:+ DOS.put_int s1 z.
Proof. unfold DOS.put_int. apply string_app_assoc. Qed.

(** Move the text written so far out of a chain of [<<]. *)
Ltac from_empty :=
  rewrite (put_from_empty _ _); repeat (rewrite put_put || rewrite put_int_put).

Lemma string_app_nil_r (s : string) : s +:+ "" = s.
Proof. induction s as [|a s IH]; [done|]. by rewrite string_app_cons, IH. Qed.

Lemma put_points_app points : ∀ cout s,
  DOS.put_points points (cout +:+ s) = cout +:+ DOS.put_points points s.
Proof.
  induction points as [|p points IH]; intros cout s; simpl; [done|].
  by rewrite !put_put, !put_int_put, !put_put, IH.
Qed.

Lemma put_points_from_empty points cout :
  DOS.put_points points cout = cout +:+ DOS.put_points points "".
Proof. by rewrite <- put_points_app, string_app_nil_r. Qed.

(** Property X27: the stub keeps no state. Each operation leaves the text
    already on the console in place and appends a text that depends on its
    arguments alone and ends with a line feed; [initialize] does so for every
    render mode and [drawText] for every alignment. *)
Theorem console_grows_by_whole_lines cout :
  (∀ mode, DOS.initialize mode cout = cout +:+ DOS.initialize mode ""
           ∧ DOS.ends_line (DOS.initialize mode ""))
  ∧ (∀ rect color, DOS.fillRect rect color cout = cout +:+ DOS.fillRect rect color ""
           ∧ DOS.ends_line (DOS.fillRect rect color ""))
  ∧ (∀ rect color, DOS.drawRect rect color cout = cout +:+ DOS.drawRect rect color ""
           ∧ DOS.ends_line (DOS.drawRect rect color ""))
  ∧ (∀ p q color, DOS.drawLine p q color cout = cout +:+ DOS.drawLine p q color ""
           ∧ DOS.ends_line (DOS.drawLine p q color ""))
  ∧ (∀ p r color filled,
       DOS.drawCircle p r color filled cout
       = cout +:+ DOS.drawCircle p r color filled ""
       ∧ DOS.ends_line (DOS.drawCircle p r color filled ""))
  ∧ (∀ p wd ht color filled,
       DOS.drawEllipse p wd ht color filled cout
       = cout +:+ DOS.drawEllipse p wd ht color filled ""
       ∧ DOS.ends_line (DOS.drawEllipse p wd ht color filled ""))
  ∧ (∀ points color filled,
       DOS.drawPolygon points color filled cout
       = cout +:+ DOS.drawPolygon points color filled ""
       ∧ DOS.ends_line (DOS.drawPolygon points color filled ""))
  ∧ (∀ text bounds color alignment,
       DOS.drawText text bounds color alignment cout
       = cout +:+ DOS.drawText text bounds color alignment ""
       ∧ DOS.ends_line (DOS.drawText text bounds color alignment "")).
Proof.
  split_and!.
  - intros mode. unfold DOS.initialize.
    split; [destruct mode; by from_empty | destruct mode; by eexists].
  - intros. unfold DOS.fillRect. split; [by from_empty | by eexists].
  - intros. unfold DOS.drawRect. split; [by from_empty | by eexists].
  - intros. unfold DOS.drawLine. split; [by from_empty | by eexists].
  - intros. unfold DOS.drawCircle. split; [by from_empty | by eexists].
  - intros. unfold DOS.drawEllipse. split; [by from_empty | by eexists].
  - intros. unfold DOS.drawPolygon. split; [|by eexists].
    from_empty. by rewrite put_points_app, put_put.
  - intros text bounds color alignment. unfold DOS.drawText.
    split; [|destruct (default _ alignment); by eexists].
    destruct (default _ alignment); by from_empty.
Qed.

(** Property X28: [main] draws nothing. Whatever the default mode and
    whatever [draw] does, the console gets the start line, then the line
    that the constructor makes [initialize] write, then the completion line,
    and the exit status is 0; the [render] call adds no character. *)
Theorem main_draws_nothing draw mode cout :
  main draw mode cout
  = (cout +:+ "Starting ZincX Test" +:+ DOS.nl
          +:+ DOS.initialize mode "" +:+ "Test Complete" +:+ DOS.nl,
     0%Z).
Proof.
  unfold main, render, ZGraphicsView_new. simpl. f_equal.
  destruct mode; unfold DOS.initialize; from_empty;
    by rewrite ?string_app_assoc.
Qed.

End ConsoleFacts.

(** ** Instances of the properties above *)

Lemma keep_item_states_idle (items : list ItemRef) :
  keep_item_states (Sample.idle_listeners items).
Proof. intros x e h (i & -> & _)%list_elem_of_fmap. reflexivity. Qed.

Lemma keep_pressed_idle (items : list ItemRef) :
  keep_pressed (Sample.idle_listeners items).
Proof. intros x e h j (i & -> & _)%list_elem_of_fmap H. exact H. Qed.

Lemma deflate_moves_each_edge_witness :
  ZRect.deflate Scenario.rect_small Scenario.pad_small = Some Sample.rect_once
  ∧ (12 + 94 = 10 + 100 - 4)%Z.
Proof.
  split; [reflexivity|].
  exact (proj1 (proj2 (proj2 (deflate_moves_each_edge Scenario.rect_small
    Sample.rect_once Scenario.pad_small eq_refl)))).
Defined.

Lemma deflate_goes_negative_witness :
  ZRect.deflate Scenario.rect_small Sample.pad_wide
  = Some {| ZRect.x := 70; ZRect.y := 20; ZRect.width := -20; ZRect.height := 50 |}
  ∧ (-20 < 0 ↔ 100 < 60 + 60)%Z.
Proof.
  split; [reflexivity|].
  exact (proj1 (deflate_goes_negative Scenario.rect_small _ Sample.pad_wide eq_refl)).
Defined.


Lemma deflate_no_padding_witness :
  ZRect.deflate Scenario.rect_small no_padding = Some Scenario.rect_small.
Proof. exact (deflate_no_padding Scenario.rect_small eq_refl). Defined.

Lemma clamp_in_range_witness : (0 ≤ clamp 15 0 10 ≤ 10)%Z.
Proof.
  destruct (clamp_in_range Z.ltb Z.gtb 15%Z 0%Z 10%Z Z_strict_total eq_refl)
    as (Hlo & Hhi & _).
  change (clamp_T Z.ltb Z.gtb 15 0 10)%Z with (clamp 15 0 10) in Hlo, Hhi.
  apply Z.ltb_ge in Hlo, Hhi. by split.
Defined.

Lemma clamp_inverted_bounds_witness : clamp 5 10 0 = 10%Z.
Proof.
  exact (proj1 (clamp_inverted_bounds Z.ltb Z.gtb 5%Z 10%Z 0%Z
                  Z_strict_total eq_refl) eq_refl).
Defined.


Lemma removeItem_absent_witness :
  removeItem 7 (Scenario.view_of [3; 4]) = Scenario.view_of [3; 4].
Proof.
  apply removeItem_absent. simpl.
  rewrite !not_elem_of_cons. split_and!; [lia | lia | apply not_elem_of_nil].
Defined.

Lemma events_are_dispatched_once_witness :
  ∃ w1, dispatchEvents 3 Scenario.click_then_key = Some w1
    ∧ dispatchEvents 1 w1 = Some w1.
Proof.
  eexists. split; [reflexivity|].
  exact (proj1 (events_are_dispatched_once 3 Scenario.click_then_key _ eq_refl) 0).
Defined.

Lemma dispatch_without_listeners_witness :
  ∃ w', dispatchEvents 3 Sample.unheard = Some w'
    ∧ heap w' = heap Sample.unheard.
Proof.
  destruct (dispatch_without_listeners Sample.unheard eq_refl)
    as (w' & Hrun & Hh & _).
  exists w'. split; [exact Hrun | exact Hh].
Defined.

Lemma dispatch_frames_unregistered_items_witness :
  ∃ w', dispatchEvents 2 Sample.one_listener = Some w'
    ∧ item_state (heap w') !! 2 = Some WidgetState.Normal
    ∧ item_state (heap w') !! 1 = Some WidgetState.Pressed.
Proof.
  eexists. split; [reflexivity|].
  pose proof (dispatch_frames_unregistered_items 2 Sample.one_listener _ eq_refl
                (keep_item_states_idle [1])) as H.
  split; [|reflexivity].
  destruct (H 2) as [H2|[Hin _]]; [exact H2|].
  apply list_elem_of_In in Hin. simpl in Hin. destruct Hin as [Hin|[]]. lia.
Defined.

Lemma pressed_stays_pressed_witness :
  ∃ w', dispatchEvents 2
          (Scenario.pressed_then_mouse EventType.KeyPress Scenario.origin 0 None)
        = Some w'
    ∧ item_state (heap w') !! 1 = Some WidgetState.Pressed.
Proof.
  eexists. split; [reflexivity|].
  apply (pressed_stays_pressed 2
           (Scenario.pressed_then_mouse EventType.KeyPress Scenario.origin 0 None)
           _ 1 eq_refl (keep_pressed_idle [1])).
  reflexivity.
Defined.

Lemma click_presses_every_registered_item_witness :
  ∃ w', dispatchEvents 3 Scenario.click_then_key = Some w'
    ∧ item_state (heap w') !! 2 = Some WidgetState.Pressed.
Proof.
  eexists. split; [reflexivity|].
  eapply (click_presses_every_registered_item 3 Scenario.click_then_key _ _
            Scenario.click eq_refl);
    [reflexivity | apply (keep_pressed_idle [1; 2]) | | reflexivity |].
  - apply list_elem_of_here.
  - apply list_elem_of_further, list_elem_of_here.
Defined.

Lemma registered_listener_runs_last_witness :
  dispatch_front (registerListener 3 Scenario.idle Scenario.click_then_key)
  = update_item_state 3 Scenario.click
      (invoke 2 Scenario.idle Scenario.click
         (registerListener 3 Scenario.idle
            (dispatch_front Scenario.click_then_key))).
Proof.
  exact (registered_listener_runs_last 3 Scenario.idle Scenario.click_then_key
           Scenario.click [Scenario.key] eq_refl).
Defined.

